(** * The Drive-to-Supabase worker: chunking and reconciliation

    A shallow embedding of [worker/text_processing.py], [worker/processing.py],
    the webhook loop of [worker/app.py] and the client methods they call,
    followed by the properties of the design document that can be stated
    about them.

    Conventions.
    - A Python [str] is a [string]; a character is read as a code point below
      256.  Python [int]s are unbounded, hence [Z].
    - [None] is [option]'s [None]; truthiness tests ([if not value], [x or y])
      are spelled out.
    - A Python exception is an [exn] carried by [Raise]; effects already done
      when it is raised stay done. *)

From Stdlib Require Import ZArith List String Ascii Bool Lia Permutation.
Import ListNotations.
Open Scope string_scope.
Open Scope list_scope.
Open Scope Z_scope.

(* ================================================================== *)
(** ** Python strings *)

Module Py.

Definition LF : ascii := "010"%char.
Definition SP : ascii := " "%char.

(** ["\n\n"], the paragraph separator. *)
Definition blank : string := String LF (String LF EmptyString).

(** [str.isspace] on one character: TAB..CR, FS..US, space, NEL, NBSP. *)
Definition is_space (c : ascii) : bool :=
  let n := N_of_ascii c in
  ((9 <=? n) && (n <=? 13) || (28 <=? n) && (n <=? 32)
   || (n =? 133) || (n =? 160))%N.

Definition is_empty (s : string) : bool :=
  match s with EmptyString => true | String _ _ => false end.

(** [bool(s)] *)
Definition truthy (s : string) : bool := negb (is_empty s).

Fixpoint lstrip (s : string) : string :=
  match s with
  | EmptyString => EmptyString
  | String c r => if is_space c then lstrip r else s
  end.

Fixpoint rstrip (s : string) : string :=
  match s with
  | EmptyString => EmptyString
  | String c r =>
      let r' := rstrip r in
      if is_empty r' && is_space c then EmptyString else String c r'
  end.

(** [s.strip()] *)
Definition strip (s : string) : string := rstrip (lstrip s).

(** [s.split()]: the maximal runs of non-whitespace characters.  [cur] is
    the word being read, [None] between words. *)
Fixpoint split_ws_from (cur : option string) (s : string) : list string :=
  match s with
  | EmptyString => match cur with Some w => [w] | None => [] end
  | String c r =>
      if is_space c then
        match cur with
        | Some w => w :: split_ws_from None r
        | None => split_ws_from None r
        end
      else
        let w := match cur with Some w => w | None => EmptyString end in
        split_ws_from (Some (w ++ String c EmptyString)%string) r
  end.

Definition split_ws (s : string) : list string := split_ws_from None s.

(** [s.split("\n\n")]: cut at every occurrence of two consecutive line
    feeds, scanning from the left; [cur] is the piece being read. *)
Fixpoint split_blank_from (cur : string) (s : string) : list string :=
  match s with
  | EmptyString => [cur]
  | String c r =>
      match r with
      | String c' r' =>
          if Ascii.eqb c LF && Ascii.eqb c' LF
          then cur :: split_blank_from EmptyString r'
          else split_blank_from (cur ++ String c EmptyString)%string r
      | EmptyString => [(cur ++ String c EmptyString)%string]
      end
  end.

Definition split_blank (s : string) : list string :=
  split_blank_from EmptyString s.

(** [sep.join(l)] *)
Definition join (sep : string) (l : list string) : string :=
  String.concat sep l.

(** [x or y] on strings that may be [None]. *)
Definition or_str (x : option string) (y : string) : string :=
  match x with
  | Some s => if truthy s then s else y
  | None => y
  end.

End Py.

(* ================================================================== *)
(** ** text_processing.py: the chunker *)

(** Embedding components are floating-point numbers; they are carried
    around and never inspected, so they are kept as their bit patterns. *)
Definition float64 := N.

Record Chunk := mkChunk {
  file_id : string;
  chunk_index : Z;
  content : string;
  tokens : option Z;
  embedding : option (list float64)
}.

(** The rows that [file_id=eq.<fid>] selects. *)
Definition belongs_to (fid : string) (c : Chunk) : bool :=
  String.eqb (file_id c) fid.

(** [[p.strip() for p in text.split("\n\n") if p.strip()]] *)
Definition _split_paragraphs (text : string) : list string :=
  map Py.strip (filter (fun p => Py.truthy (Py.strip p)) (Py.split_blank text)).

(** [len(paragraph.split())] *)
Definition word_count (s : string) : Z := Z.of_nat (List.length (Py.split_ws s)).

(** The inner [for prev in reversed(current)] loop: [rest] is what is left of
    [reversed(current)]. *)
Fixpoint overlap_walk (overlap : Z) (rest : list string)
    (overlap_paragraphs : list string) (overlap_tokens : Z) : list string * Z :=
  match rest with
  | [] => (overlap_paragraphs, overlap_tokens)
  | prev :: rest' =>
      let overlap_paragraphs := prev :: overlap_paragraphs in
      let overlap_tokens := overlap_tokens + word_count prev in
      if overlap_tokens >=? overlap then (overlap_paragraphs, overlap_tokens)
      else overlap_walk overlap rest' overlap_paragraphs overlap_tokens
  end.

(** The local variables of [chunk_text] that the loop updates. *)
Record chunker := mkChunker {
  chunks : list Chunk;
  current : list string;
  token_count : Z;
  next_index : Z
}.

Definition nonempty {A} (l : list A) : bool :=
  match l with [] => false | _ :: _ => true end.

(** One iteration of [for paragraph in paragraphs]. *)
Definition chunk_step (fid : string) (max_tokens overlap : Z)
    (st : chunker) (paragraph : string) : chunker :=
  let toks := word_count paragraph in
  let st :=
    if (token_count st + toks >? max_tokens) && nonempty (current st) then
      let content := Py.join Py.blank (current st) in
      let chunks :=
        chunks st ++ [mkChunk fid (next_index st) content (Some (token_count st)) None] in
      let idx := next_index st + 1 in
      if overlap >? 0 then
        let '(overlap_paragraphs, overlap_tokens) :=
          overlap_walk overlap (rev (current st)) [] 0 in
        mkChunker chunks overlap_paragraphs overlap_tokens idx
      else
        mkChunker chunks [] 0 idx
    else st in
  mkChunker (chunks st) (current st ++ [paragraph]) (token_count st + toks)
            (next_index st).

Definition chunk_loop (fid : string) (max_tokens overlap : Z)
    (paragraphs : list string) (st : chunker) : chunker :=
  fold_left (chunk_step fid max_tokens overlap) paragraphs st.

(** What follows the loop: the last buffer, when not empty, is a chunk. *)
Definition chunk_finish (fid : string) (st : chunker) : list Chunk :=
  if nonempty (current st) then
    chunks st ++ [mkChunk fid (next_index st) (Py.join Py.blank (current st))
                          (Some (token_count st)) None]
  else chunks st.

Definition chunk_text (text : string) (fid : string) (max_tokens overlap : Z)
    : list Chunk :=
  let paragraphs := _split_paragraphs text in
  if nonempty paragraphs then
    chunk_finish fid
      (chunk_loop fid max_tokens overlap paragraphs (mkChunker [] [] 0 0))
  else [].

(* ================================================================== *)
(** ** Exceptions, the outside world and the effect monad *)

Inductive exn :=
| HTTPStatusError   (* httpx: a request or [raise_for_status] failed *)
| HttpError         (* googleapiclient: a Drive request failed *)
| RuntimeError
| IndexError
| ValueError
| TypeError
| OtherError.

(** How a call ends: it returns a value or raises. *)
Inductive result (A : Type) : Type :=
| Ok (a : A)
| Raise (e : exn).
Arguments Ok {A} a.
Arguments Raise {A} e.

(** drive.py: [DriveFile].  [modified_time] is filled with
    [resource.get("modifiedTime")], which may be [None]. *)
Record DriveFile := mkDriveFile {
  id : string;
  name : string;
  mime_type : string;
  parents : list string;
  md5_checksum : option string;
  modified_time : option string
}.

(** A file resource as the Drive API returns it for the requested fields. *)
Record Resource := mkResource {
  res_id : string;
  res_name : string;
  res_mimeType : string;
  res_parents : option (list string);
  res_md5Checksum : option string;
  res_modifiedTime : option string
}.

(** [DriveFile(id=resource["id"], ..., parents=resource.get("parents", []), ...)] *)
Definition drive_file_of (r : Resource) : DriveFile :=
  mkDriveFile (res_id r) (res_name r) (res_mimeType r)
              (match res_parents r with Some l => l | None => [] end)
              (res_md5Checksum r) (res_modifiedTime r).

(** One page of a [files().list] answer: ["files"] and ["nextPageToken"]. *)
Record ListResponse := mkListResponse {
  response_files : list Resource;
  nextPageToken : option string
}.

(** The argument of the [upsert_file_metadata] RPC. *)
Record Payload := mkPayload {
  p_drive_id : string;
  p_parent_drive_id : option string;
  p_path : string;
  p_mime_type : string;
  p_title : string;
  p_checksum : option string;
  p_modified_at : option string;
  p_last_reviewed_at : option string;
  p_core : bool;
  p_audience : list string;
  p_age_levels : list string;
  p_geographies : list string;
  p_governance_models : list string;
  p_vouchers : option string;
  p_created_by : option string;
  p_maintained_by : option string;
  p_raw_export_path : option string
}.

(** The JSON body of an RPC answer, as far as [upsert_file_metadata] looks. *)
Inductive rpc_reply :=
| JList (items : list string)
| JStr (s : string)
| JOther.

(** The JSON body of an embeddings answer: [reply_data] is the ["data"]
    array with the ["embedding"] of each entry, [reply_total_tokens] is
    ["usage"]["total_tokens"]; [None] is a missing key. *)
Record EmbeddingsReply := mkEmbeddingsReply {
  reply_data : option (list (option (list float64)));
  reply_total_tokens : option Z
}.

(** What [dateutil]'s [isoparse] returns. *)
Record datetime := mkDatetime {
  dt_year : Z; dt_month : Z; dt_day : Z;
  dt_hour : Z; dt_minute : Z; dt_second : Z; dt_microsecond : Z;
  dt_utcoffset : option Z
}.

(** config.py: the fields of [Config] the worker reads. *)
Record Config := mkConfig {
  openai_api_key : option string;
  root_drive_id : string;
  manual_trigger_token : option string
}.

(** [bool(self.openai_api_key)] *)
Definition has_embeddings (c : Config) : bool :=
  match openai_api_key c with
  | Some k => Py.truthy k
  | None => false
  end.

(** Everything the worker does not compute itself: the configuration, the
    answers of the Drive API, of the Supabase REST and RPC endpoints and of
    the embeddings endpoint, and the date library.  A request that fails, in
    transport or in [raise_for_status], is a [Raise]. *)
Record World := mkWorld {
  cfg : Config;
  files_get : string -> result (option Resource);
  files_list : string -> option string -> result ListResponse;
  files_export : string -> string -> result string;
  rpc_upsert_file_metadata : Payload -> result rpc_reply;
  rest_delete_chunks : string -> result unit;
  rest_insert_chunks : list Chunk -> result unit;
  rpc_set_drive_start_page_token : string -> result unit;
  openai_embeddings : string -> result EmbeddingsReply;
  isoparse : string -> result datetime;
  isoformat : datetime -> string
}.

Inductive LogRecord :=
| LogWebhook
| LogBootstrapFound (n : nat) (folder_id : string)
| LogUpserted (name file_id : string)
| LogNotAccessible (file_id : string)
| LogSkipping (mime_type : string)
| LogUpdated (n : nat) (name : string)
| LogNoApiKey.

(** What the worker does to the outside, in order.  [EvProcessContent]
    records an entry into [_process_file_content]. *)
Inductive Event :=
| EvGetFile (file_id : string)
| EvListChildren (folder_id : string) (page_token : option string)
| EvExport (file_id mime_type : string)
| EvUpsert (payload : Payload)
| EvProcessContent (drive_file : DriveFile) (file_id : string)
| EvEmbed (content : string)
| EvDeleteChunks (file_id : string)
| EvInsertChunks (rows : list Chunk)
| EvPageToken (token : string)
| EvInfo (r : LogRecord)
| EvWarning (r : LogRecord).

(** The persisted chunk table, the stored page token, and the history. *)
Record Store := mkStore {
  db_chunks : list Chunk;
  db_page_token : option string;
  trace : list Event
}.

(** A computation of the worker: from a store to how the call ends and the
    store it leaves.  [None] is not a Python outcome: it marks a model run
    whose recursion budget was too small. *)
Definition M (A : Type) : Type := Store -> option (result A * Store).

Definition ret {A} (a : A) : M A := fun s => Some (Ok a, s).

Definition bind {A B} (m : M A) (k : A -> M B) : M B :=
  fun s =>
    match m s with
    | Some (Ok a, s') => k a s'
    | Some (Raise e, s') => Some (Raise e, s')
    | None => None
    end.

Notation "x <- m ;; k" := (bind m (fun x => k))
  (at level 61, m at next level, right associativity).
Notation "m ;;; k" := (bind m (fun _ => k))
  (at level 61, right associativity).

Definition raise {A} (e : exn) : M A := fun s => Some (Raise e, s).

Definition lift {A} (o : result A) : M A := fun s => Some (o, s).

Definition out_of_fuel {A} : M A := fun _ => None.

Definition emit (e : Event) : M unit :=
  fun s => Some (Ok tt, mkStore (db_chunks s) (db_page_token s) (trace s ++ [e])).

Definition set_chunks (f : list Chunk -> list Chunk) : M unit :=
  fun s => Some (Ok tt, mkStore (f (db_chunks s)) (db_page_token s) (trace s)).

Definition set_page_token (t : string) : M unit :=
  fun s => Some (Ok tt, mkStore (db_chunks s) (Some t) (trace s)).

(** [for x in l: body(x)] *)
Fixpoint for_each {A} (l : list A) (body : A -> M unit) : M unit :=
  match l with
  | [] => ret tt
  | x :: r => body x ;;; for_each r body
  end.

(* ================================================================== *)
(** ** drive.py and supabase_client.py: the client methods *)

Section Worker.

Variable W : World.

Definition root_id : string := root_drive_id (cfg W).

(** [resource], when it is not empty, is turned into a [DriveFile]. *)
Definition get_file (file_id : string) : M (option DriveFile) :=
  emit (EvGetFile file_id) ;;;
  resource <- lift (files_get W file_id) ;;
  match resource with
  | None => ret None
  | Some r => ret (Some (drive_file_of r))
  end.

(** The [while True] loop of [list_children]: one request per turn, for
    the page [page_token] of the children of [folder_id].  [fuel] bounds the
    number of pages. *)
Fixpoint list_pages (fuel : nat) (folder_id : string)
    (page_token : option string) (items : list DriveFile)
    : M (list DriveFile) :=
  match fuel with
  | O => out_of_fuel
  | S fuel' =>
      emit (EvListChildren folder_id page_token) ;;;
      response <- lift (files_list W folder_id page_token) ;;
      let items := items ++ map drive_file_of (response_files response) in
      match nextPageToken response with
      | Some t =>
          if Py.truthy t then list_pages fuel' folder_id (Some t) items
          else ret items
      | None => ret items
      end
  end.

Definition list_children (fuel : nat) (folder_id : option string)
    : M (list DriveFile) :=
  let folder_id := Py.or_str folder_id root_id in
  list_pages fuel folder_id None [].

(** The download loop is the library's; [files_export] is the text it ends
    with, decoded. *)
Definition export_file (file_id mime_type : string) : M string :=
  emit (EvExport file_id mime_type) ;;;
  lift (files_export W file_id mime_type).

Definition upsert_file_metadata (payload : Payload) : M string :=
  emit (EvUpsert payload) ;;;
  data <- lift (rpc_upsert_file_metadata W payload) ;;
  match data with
  | JList (x :: _) => ret x
  | JStr s => ret s
  | _ => raise RuntimeError
  end.

Definition update_chunks (file_id : string) (rows : list Chunk) : M unit :=
  emit (EvDeleteChunks file_id) ;;;
  lift (rest_delete_chunks W file_id) ;;;
  set_chunks (filter (fun c => negb (belongs_to file_id c))) ;;;
  if nonempty rows then
    emit (EvInsertChunks rows) ;;;
    lift (rest_insert_chunks W rows) ;;;
    set_chunks (fun table => table ++ rows)
  else ret tt.

Definition record_drive_page_token (token : string) : M unit :=
  emit (EvPageToken token) ;;;
  lift (rpc_set_drive_start_page_token W token) ;;;
  set_page_token token.

(* ================================================================== *)
(** ** text_processing.py: the embedding annotator *)

(** The body of [for chunk in chunks]; the assignments to [chunk.embedding]
    and [chunk.tokens] give the chunk returned. *)
Definition embed_chunk (chunk : Chunk) : M Chunk :=
  emit (EvEmbed (content chunk)) ;;;
  data <- lift (openai_embeddings W (content chunk)) ;;
  embedding <- match reply_data data with
               | None => ret None
               | Some [] => raise IndexError
               | Some (e :: _) => ret e
               end ;;
  let tokens := match reply_total_tokens data with
                | Some t => Some t
                | None => tokens chunk
                end in
  ret (mkChunk (file_id chunk) (chunk_index chunk) (content chunk)
               tokens embedding).

Fixpoint embed_loop (chunks : list Chunk) : M (list Chunk) :=
  match chunks with
  | [] => ret []
  | chunk :: rest =>
      chunk' <- embed_chunk chunk ;;
      rest' <- embed_loop rest ;;
      ret (chunk' :: rest')
  end.

Definition embed_chunks (chunks : list Chunk) : M (list Chunk) :=
  if negb (has_embeddings (cfg W)) then
    emit (EvWarning LogNoApiKey) ;;;
    ret chunks
  else embed_loop chunks.

Definition as_payload (c : Chunk) : Chunk :=
  mkChunk (file_id c) (chunk_index c) (content c) (tokens c) (embedding c).

(* ================================================================== *)
(** ** processing.py *)

Definition FOLDER_MIME : string := "application/vnd.google-apps.folder".

Definition SUPPORTED_EXPORTS (mime : string) : option string :=
  if String.eqb mime "application/vnd.google-apps.document" then Some "text/plain"
  else if String.eqb mime "application/vnd.google-apps.spreadsheet" then Some "text/csv"
  else if String.eqb mime "application/vnd.google-apps.presentation" then Some "text/plain"
  else None.

Definition _derive_path (stack : list string) : string := Py.join "." stack.

Definition _normalise_timestamp (value : option string) : result (option string) :=
  match value with
  | None => Ok None
  | Some v =>
      if negb (Py.truthy v) then Ok None
      else
        match isoparse W v with
        | Ok d => Ok (Some (isoformat W d))
        | Raise ValueError => Ok None
        | Raise TypeError => Ok None
        | Raise e => Raise e
        end
  end.

(** The dictionary both [bootstrap_folder] and [handle_change] build. *)
Definition metadata_payload (f : DriveFile) (ltree_path : string)
    (modified_at : option string) : Payload :=
  mkPayload (id f)
            (match parents f with p :: _ => Some p | [] => None end)
            ltree_path (mime_type f) (name f) (md5_checksum f) modified_at
            None false [] [] [] [] None None None None.

Definition _process_file_content (drive_file : DriveFile) (file_id : string)
    : M unit :=
  emit (EvProcessContent drive_file file_id) ;;;
  match SUPPORTED_EXPORTS (mime_type drive_file) with
  | None => emit (EvInfo (LogSkipping (mime_type drive_file)))
  | Some export_type =>
      text_content <- export_file (id drive_file) export_type ;;
      let chunks := chunk_text text_content file_id 800 200 in
      chunks <- embed_chunks chunks ;;
      let payloads := map as_payload chunks in
      update_chunks file_id payloads ;;;
      emit (EvInfo (LogUpdated (List.length payloads) (name drive_file)))
  end.

(** The body of [for item in items]; [recur] is [self.bootstrap_folder]. *)
Definition bootstrap_item
    (recur : option string -> option (list string) -> M unit)
    (path_stack : list string) (item : DriveFile) : M unit :=
  let ltree_path := _derive_path (path_stack ++ [id item]) in
  modified_at <- lift (_normalise_timestamp (modified_time item)) ;;
  file_id <- upsert_file_metadata
               (metadata_payload item ltree_path modified_at) ;;
  emit (EvInfo (LogUpserted (name item) file_id)) ;;;
  if String.eqb (mime_type item) FOLDER_MIME then
    recur (Some (id item)) (Some (path_stack ++ [id item]))
  else
    _process_file_content item file_id.

(** [path_stack or [folder_id]] *)
Definition or_stack (path_stack : option (list string)) (folder_id : string)
    : list string :=
  match path_stack with
  | Some (x :: l) => x :: l
  | _ => [folder_id]
  end.

(** [fuel] bounds the depth of the recursion, and the pages of a listing. *)
Fixpoint bootstrap_folder (fuel : nat) (folder_id : option string)
    (path_stack : option (list string)) : M unit :=
  match fuel with
  | O => out_of_fuel
  | S fuel' =>
      let folder_id := Py.or_str folder_id root_id in
      let path_stack := or_stack path_stack folder_id in
      items <- list_children fuel (Some folder_id) ;;
      emit (EvInfo (LogBootstrapFound (List.length items) folder_id)) ;;;
      for_each items (bootstrap_item (bootstrap_folder fuel') path_stack)
  end.

Definition handle_change (fuel : nat) (file_id : string) : M unit :=
  drive_file <- get_file file_id ;;
  match drive_file with
  | None => emit (EvWarning (LogNotAccessible file_id))
  | Some drive_file =>
      if String.eqb (mime_type drive_file) FOLDER_MIME then
        bootstrap_folder fuel (Some file_id) None
      else
        let ltree_path :=
          match parents drive_file with
          | p :: _ => _derive_path [p; id drive_file]
          | [] => id drive_file
          end in
        modified_at <- lift (_normalise_timestamp (modified_time drive_file)) ;;
        record_id <- upsert_file_metadata
                       (metadata_payload drive_file ltree_path modified_at) ;;
        _process_file_content drive_file record_id
  end.

(* ================================================================== *)
(** ** app.py: the webhook *)

(** One entry of the ["changes"] array. *)
Record Change := mkChange {
  change_fileId : option string;
  change_id : option string
}.

(** [change.get("fileId") or change.get("id")], then [if not file_id]. *)
Definition change_file_id (change : Change) : option string :=
  let file_id :=
    match change_fileId change with
    | Some s => if Py.truthy s then Some s else change_id change
    | None => change_id change
    end in
  match file_id with
  | Some s => if Py.truthy s then Some s else None
  | None => None
  end.

(** [for change in changes], with [processed] threaded through. *)
Fixpoint webhook_loop (fuel : nat) (changes : list Change)
    (processed : list string) : M (list string) :=
  match changes with
  | [] => ret processed
  | change :: rest =>
      match change_file_id change with
      | None => webhook_loop fuel rest processed
      | Some file_id =>
          handle_change fuel file_id ;;;
          webhook_loop fuel rest (processed ++ [file_id])
      end
  end.

(** The answer is [{"processed": ..., "resource_id": ...}].  Leaving
    [processor_context] closes the HTTP clients, which changes nothing
    here. *)
Definition drive_webhook (fuel : nat) (changes : list Change)
    (x_goog_resource_id : string) (x_km_start_page_token : option string)
    : M (list string * string) :=
  emit (EvInfo LogWebhook) ;;;
  processed <- webhook_loop fuel changes [] ;;
  match x_km_start_page_token with
  | Some t => if Py.truthy t then record_drive_page_token t else ret tt
  | None => ret tt
  end ;;;
  ret (processed, x_goog_resource_id).

End Worker.

(* ================================================================== *)
(** ** Vocabulary of the properties *)

(** *** Texts and chunks *)

(** Whether two consecutive line feeds occur in [s]. *)
Fixpoint has_blank (s : string) : bool :=
  match s with
  | EmptyString => false
  | String c r =>
      match r with
      | String c' _ => (Ascii.eqb c Py.LF && Ascii.eqb c' Py.LF) || has_blank r
      | EmptyString => false
      end
  end.

Definition starts_with_space (s : string) : bool :=
  match s with String c _ => Py.is_space c | EmptyString => false end.

Fixpoint ends_with_space (s : string) : bool :=
  match s with
  | EmptyString => false
  | String c EmptyString => Py.is_space c
  | String _ r => ends_with_space r
  end.

(** Whether [s] has a line, closed by a line feed and not the first one,
    that holds nothing but whitespace.  [open] tells that a line feed has
    been read and only whitespace since. *)
Fixpoint has_whitespace_line_from (open : bool) (s : string) : bool :=
  match s with
  | EmptyString => false
  | String c r =>
      if Ascii.eqb c Py.LF then
        if open then true else has_whitespace_line_from true r
      else if Py.is_space c then has_whitespace_line_from open r
      else has_whitespace_line_from false r
  end.

Definition has_whitespace_line (s : string) : bool :=
  has_whitespace_line_from false s.

(** The text ["a\n \nb"]: two lines of text around a line holding one
    space. *)
Definition text_with_space_line : string :=
  String "a" (String Py.LF (String Py.SP (String Py.LF "b"))).

(** [cur] put in front of the first piece of [l]. *)
Definition prepend (cur : string) (l : list string) : list string :=
  match l with
  | x :: r => String.append cur x :: r
  | [] => [cur]
  end.

Definition sum_words (l : list string) : Z :=
  fold_right (fun p n => word_count p + n) 0 l.

(** [g] occurs in [l] as a run of consecutive elements. *)
Definition segment (g l : list string) : Prop :=
  exists pre post, l = pre ++ g ++ post.

(** The state of the chunker after the paragraphs [done] have been read,
    with [gs] the paragraphs that went into each closed chunk. *)
Record chunker_inv (overlap : Z) (done : list string)
    (gs : list (list string)) (st : chunker) : Prop := {
  inv_tokens : token_count st = sum_words (current st);
  inv_chunk_tokens :
    Forall (fun c => tokens c = Some (word_count (content c))) (chunks st);
  inv_contents : map content (chunks st) = map (Py.join Py.blank) gs;
  inv_groups : Forall (fun g => g <> [] /\ segment g done) gs;
  inv_current : exists pre, done = pre ++ current st;
  inv_partition : overlap <= 0 -> done = List.concat gs ++ current st
}.

(** The positions [off], [off+1], ... of the paragraphs of each group, for
    groups laid out one after the other. *)
Fixpoint positions (off : nat) (gs : list (list string)) : list (list nat) :=
  match gs with
  | [] => []
  | g :: r => seq off (List.length g) :: positions (off + List.length g) r
  end.

(** The paragraphs at the positions [g]. *)
Definition paragraphs_at (ps : list string) (g : list nat) : list string :=
  map (fun k => nth k ps EmptyString) g.

(** *** Histories *)

(** The payloads of the metadata upserts of a history, in order. *)
Definition upserts (t : list Event) : list Payload :=
  flat_map (fun e => match e with EvUpsert p => [p] | _ => [] end) t.

(** The calls of [_process_file_content] of a history, in order. *)
Definition process_calls (t : list Event) : list (DriveFile * string) :=
  flat_map (fun e => match e with
                     | EvProcessContent f r => [(f, r)]
                     | _ => []
                     end) t.

(** The requests of a history that change the chunk table. *)
Definition chunk_writes (t : list Event) : list Event :=
  filter (fun e => match e with
                   | EvDeleteChunks _ | EvInsertChunks _ => true
                   | _ => false
                   end) t.

(** An event that is neither an upsert nor an entry into content
    processing. *)
Definition quiet (e : Event) : bool :=
  match e with
  | EvUpsert _ | EvProcessContent _ _ => false
  | _ => true
  end.

(** [m], started in [s], returns [a], leaves [s'] and adds [evs] to the
    history. *)
Definition steps {A} (m : M A) (s : Store) (a : A) (s' : Store)
    (evs : list Event) : Prop :=
  m s = Some (Ok a, s') /\ trace s' = trace s ++ evs.

(** *** Worlds *)

(** The date parser rejects a string with [ValueError] or [TypeError]. *)
Definition parser_contract (W : World) : Prop :=
  forall v, match isoparse W v with
            | Ok _ => True
            | Raise e => e = ValueError \/ e = TypeError
            end.

(** A world in which no request fails and every answer is well formed. *)
Record healthy (W : World) : Prop := {
  healthy_parser : parser_contract W;
  healthy_upsert :
    forall p, match rpc_upsert_file_metadata W p with
              | Ok (JStr _) | Ok (JList (_ :: _)) => True
              | _ => False
              end;
  healthy_export :
    forall i m, match files_export W i m with Ok _ => True | Raise _ => False end;
  healthy_embeddings :
    forall c, match openai_embeddings W c with
              | Ok r => reply_data r <> Some []
              | Raise _ => False
              end;
  healthy_delete : forall f, rest_delete_chunks W f = Ok tt;
  healthy_insert : forall rows, rest_insert_chunks W rows = Ok tt
}.

(** What [_normalise_timestamp] gives for the payload of [f]. *)
Definition modified_at_of (W : World) (f : DriveFile) : option string :=
  match _normalise_timestamp W (modified_time f) with
  | Ok r => r
  | Raise _ => None
  end.

(** *** Trees of Drive files *)

#[warnings="-register-all"]
Inductive tree :=
| Leaf (f : DriveFile)
| Folder (f : DriveFile) (kids : list tree).

Definition root_of (t : tree) : DriveFile :=
  match t with Leaf f => f | Folder f _ => f end.

Definition is_folder (f : DriveFile) : bool :=
  String.eqb (mime_type f) FOLDER_MIME.

(** The number of folders and of leaf files of a tree. *)
Fixpoint folders (t : tree) : nat :=
  match t with
  | Leaf _ => O
  | Folder _ kids => S (list_sum (map folders kids))
  end.

Fixpoint leaves (t : tree) : nat :=
  match t with
  | Leaf _ => 1%nat
  | Folder _ kids => list_sum (map leaves kids)
  end.

Fixpoint depth (t : tree) : nat :=
  match t with
  | Leaf _ => O
  | Folder _ kids => S (fold_right (fun k n => Nat.max (depth k) n) O kids)
  end.

Definition forest_depth (kids : list tree) : nat :=
  fold_right (fun k n => Nat.max (depth k) n) O kids.

Definition forest_folders (kids : list tree) : nat :=
  list_sum (map folders kids).

Definition forest_leaves (kids : list tree) : nat :=
  list_sum (map leaves kids).

(** The nodes of a tree, parents before children, each with the ids from
    the root of the tree down to it. *)
Fixpoint walk (t : tree) : list (list string * DriveFile) :=
  match t with
  | Leaf f => [([id f], f)]
  | Folder f kids =>
      ([id f], f)
        :: map (fun n => (id f :: fst n, snd n)) (flat_map walk kids)
  end.

(** The leaf files of a tree, in the same order. *)
Fixpoint leaf_files (t : tree) : list DriveFile :=
  match t with
  | Leaf f => [f]
  | Folder _ kids => flat_map leaf_files kids
  end.

(** The children that the provider lists for [folder_id] from the page
    [page_token] on, when that takes at most [n] requests and none fails. *)
Fixpoint listing (W : World) (n : nat) (folder_id : string)
    (page_token : option string) : option (list DriveFile) :=
  match n with
  | O => None
  | S n' =>
      match files_list W folder_id page_token with
      | Raise _ => None
      | Ok response =>
          let items := map drive_file_of (response_files response) in
          match nextPageToken response with
          | Some t =>
              if Py.truthy t then
                match listing W n' folder_id (Some t) with
                | Some rest => Some (items ++ rest)
                | None => None
                end
              else Some items
          | None => Some items
          end
      end
  end.

(** What the walk of [kids] under the path stack [stack] has to upsert: for
    every node, parents first, its payload, with the path that joins [stack]
    and the ids from the top of [kids] down to the node. *)
Definition expected_upserts (W : World) (stack : list string)
    (kids : list tree) : list Payload :=
  map (fun n => metadata_payload (snd n) (_derive_path (stack ++ fst n))
                                 (modified_at_of W (snd n)))
      (flat_map walk kids).

(** The provider lists the tree: the listing of every folder, which takes
    at most [n] requests, is its children, in the order of the tree, and the
    files that have the folder type are the folders. *)
Fixpoint tree_listed (W : World) (n : nat) (t : tree) : Prop :=
  match t with
  | Leaf f => is_folder f = false
  | Folder f kids =>
      is_folder f = true
      /\ listing W n (Py.or_str (Some (id f)) (root_id W)) None
         = Some (map root_of kids)
      /\ fold_right (fun k P => tree_listed W n k /\ P) True kids
  end.

Definition forest_listed (W : World) (n : nat) (kids : list tree) : Prop :=
  fold_right (fun k P => tree_listed W n k /\ P) True kids.

(** What a walk with the budget [fuel] does, whatever it starts from: it
    returns, having upserted the nodes of the tree listed and entered
    content processing for its leaf files. *)
Definition walk_ok (W : World) (n fuel : nat) : Prop :=
  forall folder stack kids s,
    listing W n (Py.or_str folder (root_id W)) None = Some (map root_of kids) ->
    forest_listed W n kids ->
    (n + forest_depth kids <= fuel)%nat ->
    exists s' evs,
      steps (bootstrap_folder W fuel folder stack) s tt s' evs
      /\ upserts evs
         = expected_upserts W (or_stack stack (Py.or_str folder (root_id W))) kids
      /\ map fst (process_calls evs) = flat_map leaf_files kids.

(** The same tree up to the order of siblings, at every level. *)
Inductive tree_perm : tree -> tree -> Prop :=
| perm_leaf f : tree_perm (Leaf f) (Leaf f)
| perm_folder f ks ks' :
    forest_perm ks ks' -> tree_perm (Folder f ks) (Folder f ks')
with forest_perm : list tree -> list tree -> Prop :=
| perm_none : forest_perm [] []
| perm_skip t t' l l' :
    tree_perm t t' -> forest_perm l l' -> forest_perm (t :: l) (t' :: l')
| perm_swap t u l : forest_perm (t :: u :: l) (u :: t :: l)
| perm_trans l1 l2 l3 :
    forest_perm l1 l2 -> forest_perm l2 l3 -> forest_perm l1 l3.

Scheme tree_perm_mut := Minimality for tree_perm Sort Prop
  with forest_perm_mut := Minimality for forest_perm Sort Prop.

(** *** The webhook *)

(** The ids a change notification leads to, for a leaf: its first parent,
    when it has one, then the file. *)
Definition change_chain (f : DriveFile) : list string :=
  match parents f with
  | p :: _ => [p; id f]
  | [] => [id f]
  end.

(** Every change of the batch that names a file has been looked up at the
    provider by the time the webhook call ends. *)
Definition handles_every_change (W : World) (fuel : nat)
    (changes : list Change) (s : Store) : Prop :=
  forall r s', drive_webhook W fuel changes EmptyString None s = Some (r, s') ->
  forall c f, In c changes -> change_file_id c = Some f ->
  In (EvGetFile f) (trace s').

(** The file ids of a batch, in order. *)
Definition change_ids (changes : list Change) : list string :=
  flat_map (fun c => match change_file_id c with
                     | Some f => [f]
                     | None => []
                     end) changes.

(** The store once the webhook has logged the delivery. *)
Definition webhook_logged (s : Store) : Store :=
  mkStore (db_chunks s) (db_page_token s) (trace s ++ [EvInfo LogWebhook]).

(** A batch of two changes, for ["doc1"] and then for ["doc2"]. *)
Definition sample_batch : list Change :=
  [mkChange (Some "doc1") None; mkChange None (Some "doc2")].

(** *** A small Drive

    The folder ["root"] holds the document ["doc1"] and the folder ["sub"],
    which holds the document ["doc2"]; the children of ["root"] are listed
    in two pages. *)

Definition DOCUMENT_MIME : string := "application/vnd.google-apps.document".

Definition sample_time : string := "2024-01-02T03:04:05Z".

Definition res_doc1 : Resource :=
  mkResource "doc1" "Doc 1" DOCUMENT_MIME (Some ["root"]) (Some "9e107d9d")
             (Some sample_time).

Definition res_doc2 : Resource :=
  mkResource "doc2" "Doc 2" DOCUMENT_MIME (Some ["sub"]) None None.

Definition res_sub : Resource :=
  mkResource "sub" "Sub" FOLDER_MIME (Some ["root"]) None (Some sample_time).

Definition doc1 : DriveFile := drive_file_of res_doc1.
Definition doc2 : DriveFile := drive_file_of res_doc2.
Definition sub : DriveFile := drive_file_of res_sub.

(** The tree under ["root"], and the same tree in the order of the
    listing. *)
Definition sample_tree : list tree := [Folder sub [Leaf doc2]; Leaf doc1].
Definition sample_listing : list tree := [Leaf doc1; Folder sub [Leaf doc2]].

Definition sample_text : string :=
  String.append "Para one."
    (String.append Py.blank "Para two is longer with more words here.").

Definition sample_world : World :=
  mkWorld
    (mkConfig (Some "sk-test") "root" None)
    (fun i => if String.eqb i "doc1" then Ok (Some res_doc1)
              else if String.eqb i "doc2" then Ok (Some res_doc2)
              else if String.eqb i "sub" then Ok (Some res_sub)
              else Ok None)
    (fun i page =>
       if String.eqb i "root" then
         match page with
         | None => Ok (mkListResponse [res_doc1] (Some "page-2"))
         | Some _ => Ok (mkListResponse [res_sub] None)
         end
       else if String.eqb i "sub" then Ok (mkListResponse [res_doc2] None)
       else Ok (mkListResponse [] None))
    (fun _ _ => Ok sample_text)
    (fun p => Ok (JStr (String.append "rec-" (p_drive_id p))))
    (fun _ => Ok tt)
    (fun _ => Ok tt)
    (fun _ => Ok tt)
    (fun _ => Ok (mkEmbeddingsReply (Some [Some [1; 2; 3]%N]) (Some 7)))
    (fun v => if String.eqb v sample_time
              then Ok (mkDatetime 2024 1 2 3 4 5 0 (Some 0))
              else Raise ValueError)
    (fun _ => "2024-01-02T03:04:05+00:00").

(** The same Drive when the embeddings endpoint answers with an error
    status. *)
Definition world_without_embeddings : World :=
  mkWorld (cfg sample_world) (files_get sample_world)
    (files_list sample_world) (files_export sample_world)
    (rpc_upsert_file_metadata sample_world)
    (rest_delete_chunks sample_world) (rest_insert_chunks sample_world)
    (rpc_set_drive_start_page_token sample_world)
    (fun _ => Raise HTTPStatusError)
    (isoparse sample_world) (isoformat sample_world).

(** The same Drive when the upsert of ["doc1"] is answered with an error
    status. *)
Definition world_rejecting_doc1 : World :=
  mkWorld (cfg sample_world) (files_get sample_world)
    (files_list sample_world) (files_export sample_world)
    (fun p => if String.eqb (p_drive_id p) "doc1" then Raise HTTPStatusError
              else rpc_upsert_file_metadata sample_world p)
    (rest_delete_chunks sample_world) (rest_insert_chunks sample_world)
    (rpc_set_drive_start_page_token sample_world)
    (openai_embeddings sample_world)
    (isoparse sample_world) (isoformat sample_world).

(** A store that holds two chunks of ["rec-doc1"] from an earlier run. *)
Definition sample_store : Store :=
  mkStore [mkChunk "rec-doc1" 0 "old one" (Some 2) None;
           mkChunk "rec-doc1" 1 "old two" (Some 2) None]
          None [].

Definition empty_store : Store := mkStore [] None [].

(** *** More on texts and chunks *)

(** Whether [s] holds nothing but whitespace. *)
Fixpoint all_space (s : string) : bool :=
  match s with
  | EmptyString => true
  | String c r => Py.is_space c && all_space r
  end.

(** The chunks closed so far are numbered from 0, belong to [fid] and carry
    no embedding, and the next index is their number. *)
Definition chunker_numbered (fid : string) (st : chunker) : Prop :=
  next_index st = Z.of_nat (List.length (chunks st))
  /\ map chunk_index (chunks st)
     = map Z.of_nat (seq 0 (List.length (chunks st)))
  /\ Forall (fun c => file_id c = fid /\ embedding c = None) (chunks st).

(** [g'] starts with paragraphs that [g] ends with, and goes on after them. *)
Definition overlapping (g g' : list string) : Prop :=
  exists pre seed post,
    seed <> [] /\ post <> [] /\ g = pre ++ seed /\ g' = seed ++ post.

(** Each group of paragraphs overlaps with the next one. *)
Fixpoint chained (gs : list (list string)) : Prop :=
  match gs with
  | [] => True
  | g :: r =>
      match r with
      | [] => True
      | g' :: _ => overlapping g g'
      end /\ chained r
  end.

(** A chunk that is within [max_tokens] words, or is one paragraph of [ps]. *)
Definition within_or_single (max_tokens : Z) (ps : list string) (c : Chunk)
    : Prop :=
  (exists n, tokens c = Some n /\ n <= max_tokens) \/ In (content c) ps.

(** The chunks closed so far are within [max_tokens] words or single
    paragraphs, and the buffer is empty, within [max_tokens] words, or one
    paragraph. *)
Definition bounded_state (max_tokens : Z) (done : list string)
    (st : chunker) : Prop :=
  Forall (within_or_single max_tokens done) (chunks st)
  /\ token_count st = sum_words (current st)
  /\ (current st = [] \/ token_count st <= max_tokens
      \/ exists p, current st = [p] /\ In p done).

(** *** More on requests *)

(** [c'] is [c] with the embedding and the token count of the answer to the
    embeddings request for its content. *)
Definition annotated (W : World) (c c' : Chunk) : Prop :=
  exists r,
    openai_embeddings W (content c) = Ok r
    /\ reply_data r <> Some []
    /\ c' = mkChunk (file_id c) (chunk_index c) (content c)
                    (match reply_total_tokens r with
                     | Some t => Some t
                     | None => tokens c
                     end)
                    (match reply_data r with
                     | Some (e :: _) => e
                     | _ => None
                     end).

(** The embeddings request for the content of [c] fails with [e]: the
    request itself, or the answer has an empty ["data"] array. *)
Definition embedding_fails (W : World) (c : Chunk) (e : exn) : Prop :=
  openai_embeddings W (content c) = Raise e
  \/ (e = IndexError
      /\ exists r, openai_embeddings W (content c) = Ok r
                   /\ reply_data r = Some []).

(** The embeddings requests for the chunks [cs], in order. *)
Definition embed_requests (cs : list Chunk) : list Event :=
  map (fun c => EvEmbed (content c)) cs.

(** The rows of the table that are not those of [fid]. *)
Definition other_rows (fid : string) (table : list Chunk) : list Chunk :=
  filter (fun c => negb (belongs_to fid c)) table.

(** The small Drive when the insert request on the chunk table is answered
    with an error status. *)
Definition world_rejecting_inserts : World :=
  mkWorld (cfg sample_world) (files_get sample_world)
    (files_list sample_world) (files_export sample_world)
    (rpc_upsert_file_metadata sample_world)
    (rest_delete_chunks sample_world)
    (fun _ => Raise HTTPStatusError)
    (rpc_set_drive_start_page_token sample_world)
    (openai_embeddings sample_world)
    (isoparse sample_world) (isoformat sample_world).

(** A picture in ["root"], of a type that has no export. *)
Definition res_img : Resource :=
  mkResource "img" "Logo" "image/png" (Some ["root"]) (Some "c4ca4238")
             (Some sample_time).

(** The small Drive with the picture added. *)
Definition world_with_picture : World :=
  mkWorld (cfg sample_world)
    (fun i => if String.eqb i "img" then Ok (Some res_img)
              else files_get sample_world i)
    (files_list sample_world) (files_export sample_world)
    (rpc_upsert_file_metadata sample_world)
    (rest_delete_chunks sample_world) (rest_insert_chunks sample_world)
    (rpc_set_drive_start_page_token sample_world)
    (openai_embeddings sample_world)
    (isoparse sample_world) (isoformat sample_world).

(** The small Drive when every export is a line feed between two spaces. *)
Definition world_with_blank_exports : World :=
  mkWorld (cfg sample_world) (files_get sample_world)
    (files_list sample_world)
    (fun _ _ => Ok (String Py.SP (String Py.LF (String Py.SP EmptyString))))
    (rpc_upsert_file_metadata sample_world)
    (rest_delete_chunks sample_world) (rest_insert_chunks sample_world)
    (rpc_set_drive_start_page_token sample_world)
    (openai_embeddings sample_world)
    (isoparse sample_world) (isoformat sample_world).

(** *** Pages *)

(** From the page [token] on, the provider serves the children of [folder]
    in the pages [pages]: every page but the last comes with a token for the
    next, the last with none or an empty one. *)
Inductive serves (W : World) (folder : string)
    : option string -> list (list Resource) -> Prop :=
| serves_last token fs next :
    files_list W folder token = Ok (mkListResponse fs next) ->
    match next with Some t => Py.truthy t = false | None => True end ->
    serves W folder token [fs]
| serves_more token fs t rest :
    files_list W folder token = Ok (mkListResponse fs (Some t)) ->
    Py.truthy t = true ->
    serves W folder (Some t) rest ->
    serves W folder token (fs :: rest).

(** The provider answers every listing request for [folder] with a token
    for a next page. *)
Definition never_ends (W : World) (folder : string) : Prop :=
  forall token, exists fs t,
    files_list W folder token = Ok (mkListResponse fs (Some t))
    /\ Py.truthy t = true.

(** A Drive whose listings always announce one more page. *)
Definition world_of_endless_pages : World :=
  mkWorld (cfg sample_world) (files_get sample_world)
    (fun _ _ => Ok (mkListResponse [res_doc1] (Some "again")))
    (files_export sample_world)
    (rpc_upsert_file_metadata sample_world)
    (rest_delete_chunks sample_world) (rest_insert_chunks sample_world)
    (rpc_set_drive_start_page_token sample_world)
    (openai_embeddings sample_world)
    (isoparse sample_world) (isoformat sample_world).

(** *** What every run keeps *)

(** Every run of [m], however it ends, takes a store to one related to it
    by [R]. *)
Definition preserves {A} (R : Store -> Store -> Prop) (m : M A) : Prop :=
  forall s r s', m s = Some (r, s') -> R s s'.

(** The events of the walk and of change handling: anything but the
    recording of a page token, with upserts of payloads built by
    [metadata_payload]. *)
Definition worker_event (e : Event) : Prop :=
  match e with
  | EvPageToken _ => False
  | EvUpsert p => exists f path modified_at,
      p = metadata_payload f path modified_at
  | _ => True
  end.

(** An upsert submits none of the fields that do not come from the Drive:
    they are empty, unset or false. *)
Definition upsert_defaults (e : Event) : Prop :=
  match e with
  | EvUpsert p =>
      p_last_reviewed_at p = None /\ p_core p = false
      /\ p_audience p = [] /\ p_age_levels p = []
      /\ p_geographies p = [] /\ p_governance_models p = []
      /\ p_vouchers p = None /\ p_created_by p = None
      /\ p_maintained_by p = None /\ p_raw_export_path p = None
  | _ => True
  end.

(** The store has the page token of [s]. *)
Definition same_page_token (s s' : Store) : Prop :=
  db_page_token s' = db_page_token s.

(** The history has grown by events that satisfy [P]. *)
Definition grown_by (P : Event -> Prop) (s s' : Store) : Prop :=
  exists evs, trace s' = trace s ++ evs /\ Forall P evs.

(* ================================================================== *)
(** ** app.py: the manual triggers *)

(** What an endpoint with a bearer check answers: [Unauthorized] is the
    [HTTPException(status_code=401)] it raises, which the framework turns
    into the answer. *)
Inductive http_answer (A : Type) : Type :=
| Unauthorized
| Answered (body : A).
Arguments Unauthorized {A}.
Arguments Answered {A} body.

(** The negation of
    [cfg.manual_trigger_token and authorization != f"Bearer {token}"]. *)
Definition authorized (c : Config) (authorization : option string) : bool :=
  match manual_trigger_token c with
  | Some t =>
      if Py.truthy t then
        match authorization with
        | Some a => String.eqb a (String.append "Bearer " t)
        | None => false
        end
      else true
  | None => true
  end.

(** The answer is [{"status": "scheduled", "drive_id": drive_id}]. *)
Definition manual_reindex (W : World) (fuel : nat) (drive_id : string)
    (authorization : option string) : M (http_answer (string * string)) :=
  if negb (authorized (cfg W) authorization) then ret Unauthorized
  else
    handle_change W fuel drive_id ;;;
    ret (Answered ("scheduled", drive_id)).

(** The answer is [{"status": "completed"}]. *)
Definition bootstrap (W : World) (fuel : nat)
    (authorization : option string) : M (http_answer string) :=
  if negb (authorized (cfg W) authorization) then ret Unauthorized
  else
    bootstrap_folder W fuel None None ;;;
    ret (Answered "completed").

(** The small Drive behind the trigger token ["s3cret"]. *)
Definition world_with_trigger_token : World :=
  mkWorld (mkConfig (Some "sk-test") "root" (Some "s3cret"))
    (files_get sample_world)
    (files_list sample_world) (files_export sample_world)
    (rpc_upsert_file_metadata sample_world)
    (rest_delete_chunks sample_world) (rest_insert_chunks sample_world)
    (rpc_set_drive_start_page_token sample_world)
    (openai_embeddings sample_world)
    (isoparse sample_world) (isoformat sample_world).

(** The id holds no dot. *)
Fixpoint dot_free (s : string) : bool :=
  match s with
  | EmptyString => true
  | String c r => negb (Ascii.eqb c ".") && dot_free r
  end.

(** What follows the first id in a path: nothing, or a dot and the path of
    the ids that follow. *)
Definition path_tail (l : list string) : string :=
  match l with
  | [] => EmptyString
  | _ => String.append "." (_derive_path l)
  end.

(** The rows of the file [fid] are the same in both stores. *)
Definition same_rows_of (fid : string) (s s' : Store) : Prop :=
  filter (belongs_to fid) (db_chunks s')
  = filter (belongs_to fid) (db_chunks s).

(** From [s] to [s'] the trace has grown by requests, and the rows have
    changed of those files only for which a delete request was sent. *)
Definition rows_change_on_request (s s' : Store) : Prop :=
  exists evs,
    trace s' = trace s ++ evs
    /\ forall fid, ~ In (EvDeleteChunks fid) evs -> same_rows_of fid s s'.

(** *** Paths, as the specification words them *)






(** *** More worlds *)

(** The small Drive after ["doc1"] was deleted: the request for it is
    answered with the status 404, which the client library raises as
    [HttpError]. *)
Definition world_without_doc1 : World :=
  mkWorld (cfg sample_world)
    (fun i => if String.eqb i "doc1" then Raise HttpError
              else files_get sample_world i)
    (files_list sample_world) (files_export sample_world)
    (rpc_upsert_file_metadata sample_world)
    (rest_delete_chunks sample_world) (rest_insert_chunks sample_world)
    (rpc_set_drive_start_page_token sample_world)
    (openai_embeddings sample_world)
    (isoparse sample_world) (isoformat sample_world).

(** A time that has the ISO form and lies past the last date: the parser
    raises [OverflowError] for it, which is neither [ValueError] nor
    [TypeError]. *)
Definition late_time : string := "9999-12-31T24:00:00".

Definition res_late : Resource :=
  mkResource "late" "Late" DOCUMENT_MIME (Some ["root"]) None (Some late_time).

(** The small Drive with the document ["late"], modified at [late_time]. *)
Definition world_with_a_late_document : World :=
  mkWorld (cfg sample_world)
    (fun i => if String.eqb i "late" then Ok (Some res_late)
              else files_get sample_world i)
    (files_list sample_world) (files_export sample_world)
    (rpc_upsert_file_metadata sample_world)
    (rest_delete_chunks sample_world) (rest_insert_chunks sample_world)
    (rpc_set_drive_start_page_token sample_world)
    (openai_embeddings sample_world)
    (fun v => if String.eqb v late_time then Raise OtherError
              else isoparse sample_world v)
    (isoformat sample_world).

(* ================================================================== *)
(** ** Facts about the string operations *)

Section StringFacts.

Import Py.

Local Notation "a +s+ b" := (String.append a b)
  (at level 60, right associativity).

Lemma append_nil_r (s : string) : s +s+ EmptyString = s.
Proof. induction s; simpl; congruence. Qed.

Lemma append_assoc (a b c : string) : (a +s+ b) +s+ c = a +s+ (b +s+ c).
Proof. induction a; simpl; congruence. Qed.

Lemma split_blank_from_prepend (s cur : string) :
  split_blank_from cur s = prepend cur (split_blank s).
Proof.
  revert cur; induction s as [|c r IH]; intros cur.
  - simpl. now rewrite append_nil_r.
  - unfold split_blank. simpl. destruct r as [|c' r'].
    + reflexivity.
    + destruct (Ascii.eqb c LF && Ascii.eqb c' LF).
      * simpl. now rewrite append_nil_r.
      * rewrite (IH (cur +s+ String c EmptyString)).
        rewrite (IH (String c EmptyString)).
        unfold split_blank.
        destruct (split_blank_from EmptyString (String c' r')); simpl;
          now rewrite ?append_assoc, ?append_nil_r.
Qed.

Lemma split_blank_whole (s : string) :
  has_blank s = false -> split_blank s = [s].
Proof.
  induction s as [|c r IH]; intros H.
  - reflexivity.
  - unfold split_blank. simpl in *. destruct r as [|c' r'].
    + reflexivity.
    + apply orb_false_iff in H as [H1 H2]. rewrite H1.
      rewrite split_blank_from_prepend, (IH H2). reflexivity.
Qed.

Lemma split_blank_cons2 (c c' : ascii) (r : string) :
  split_blank (String c (String c' r))
  = if Ascii.eqb c LF && Ascii.eqb c' LF then EmptyString :: split_blank r
    else prepend (String c EmptyString) (split_blank (String c' r)).
Proof.
  unfold split_blank at 1.
  change (split_blank_from EmptyString (String c (String c' r)))
    with (if Ascii.eqb c LF && Ascii.eqb c' LF
          then EmptyString :: split_blank_from EmptyString r
          else split_blank_from (String c EmptyString) (String c' r)).
  destruct (Ascii.eqb c LF && Ascii.eqb c' LF); [reflexivity|].
  apply split_blank_from_prepend.
Qed.

Lemma split_blank_cut (a b : string) :
  has_blank (a +s+ String LF EmptyString) = false ->
  split_blank (a +s+ blank +s+ b) = a :: split_blank b.
Proof.
  induction a as [|c r IH]; intros H.
  - reflexivity.
  - destruct r as [|c' r'].
    + cbn in H. apply orb_false_iff in H as [H1 _].
      rewrite Bool.andb_true_r in H1.
      change (split_blank (String c (String LF (String LF b)))
              = String c EmptyString :: split_blank b).
      rewrite split_blank_cons2, H1. cbn [andb].
      rewrite (split_blank_cons2 LF LF b). reflexivity.
    + change (has_blank (String c (String c' (r' +s+ String LF EmptyString)))
              = false) in H.
      cbn [has_blank] in H. apply orb_false_iff in H as [H1 H2].
      change (split_blank (String c (String c' (r' +s+ blank +s+ b)))
              = String c (String c' r') :: split_blank b).
      rewrite split_blank_cons2, H1.
      change (String c' (r' +s+ blank +s+ b))
        with (String c' r' +s+ blank +s+ b).
      rewrite IH; [reflexivity|exact H2].
Qed.

(** *** Trimming *)

Lemma lstrip_starts (s : string) : starts_with_space (lstrip s) = false.
Proof.
  induction s as [|c r IH]; simpl; auto.
  destruct (is_space c) eqn:E; simpl; auto.
Qed.

Lemma rstrip_starts (s : string) :
  starts_with_space s = false -> starts_with_space (rstrip s) = false.
Proof.
  destruct s as [|c r]; simpl; auto. intros H. rewrite H.
  rewrite Bool.andb_false_r. exact H.
Qed.

Lemma rstrip_ends (s : string) : ends_with_space (rstrip s) = false.
Proof.
  induction s as [|c r IH]; simpl; auto.
  destruct (rstrip r) as [|c' r'] eqn:E; simpl.
  - destruct (is_space c) eqn:Ec; simpl; auto.
  - exact IH.
Qed.

Lemma strip_trimmed (s : string) :
  starts_with_space (strip s) = false /\ ends_with_space (strip s) = false.
Proof.
  unfold strip. split.
  - apply rstrip_starts, lstrip_starts.
  - apply rstrip_ends.
Qed.

(** *** Counting words *)

Lemma split_ws_from_length (s : string) (w w' : string) :
  List.length (split_ws_from (Some w) s)
  = List.length (split_ws_from (Some w') s).
Proof.
  revert w w'; induction s as [|c r IH]; intros w w'; simpl; auto.
  destruct (is_space c); simpl; auto.
Qed.

Lemma split_ws_from_sep (a b : string) (c : ascii) (cur : option string) :
  is_space c = true ->
  List.length (split_ws_from cur (a +s+ String c b))
  = (List.length (split_ws_from cur a) + List.length (split_ws b))%nat.
Proof.
  intros Hc. revert cur; induction a as [|x r IH]; intros cur; simpl.
  - rewrite Hc. destruct cur; reflexivity.
  - destruct (is_space x).
    + destruct cur; simpl; rewrite IH; reflexivity.
    + apply IH.
Qed.

Lemma word_count_sep (a b : string) (c : ascii) :
  is_space c = true ->
  word_count (a +s+ String c b) = word_count a + word_count b.
Proof.
  intros Hc. unfold word_count, split_ws.
  rewrite (split_ws_from_sep a b c None Hc). unfold split_ws. lia.
Qed.

Lemma word_count_blank (a b : string) :
  word_count (a +s+ blank +s+ b) = word_count a + word_count b.
Proof.
  unfold blank. simpl. rewrite word_count_sep by reflexivity.
  change (String LF b) with (EmptyString +s+ String LF b).
  rewrite word_count_sep by reflexivity. reflexivity.
Qed.

Lemma sum_words_app (l l' : list string) :
  sum_words (l ++ l') = sum_words l + sum_words l'.
Proof. induction l; simpl; lia. Qed.

Lemma word_count_join (l : list string) :
  word_count (join blank l) = sum_words l.
Proof.
  induction l as [|p l IH]; [reflexivity|].
  destruct l as [|q l].
  - simpl. lia.
  - change (join blank (p :: q :: l))
      with (p +s+ blank +s+ join blank (q :: l)).
    rewrite word_count_blank, IH. reflexivity.
Qed.

End StringFacts.

(* ================================================================== *)
(** ** Facts about the chunker *)

Section ChunkerFacts.

Import Py.

Variables (fid : string) (max_tokens overlap : Z).

Lemma segment_snoc (g l : list string) (p : string) :
  segment g l -> segment g (l ++ [p]).
Proof.
  intros (pre & post & ->). exists pre, (post ++ [p]).
  now rewrite <- !app_assoc.
Qed.

Lemma overlap_walk_sum (rest acc : list string) (n : Z) :
  n = sum_words acc ->
  snd (overlap_walk overlap rest acc n)
  = sum_words (fst (overlap_walk overlap rest acc n)).
Proof.
  revert acc n; induction rest as [|prev rest IH]; intros acc n Hn; simpl.
  - exact Hn.
  - destruct (n + word_count prev >=? overlap); simpl.
    + subst n. lia.
    + apply IH. simpl. lia.
Qed.

Lemma overlap_walk_suffix (rest acc : list string) (n : Z) :
  exists pre, rev rest ++ acc = pre ++ fst (overlap_walk overlap rest acc n).
Proof.
  revert acc n; induction rest as [|prev rest IH]; intros acc n; simpl.
  - now exists [].
  - rewrite <- app_assoc. simpl.
    destruct (n + word_count prev >=? overlap); simpl.
    + now exists (rev rest).
    + apply IH.
Qed.

Lemma chunker_inv_init : chunker_inv overlap [] [] (mkChunker [] [] 0 0).
Proof. split; simpl; auto. now exists []. Qed.

Lemma chunk_step_inv done gs st p :
  chunker_inv overlap done gs st ->
  exists gs',
    chunker_inv overlap (done ++ [p]) gs' (chunk_step fid max_tokens overlap st p).
Proof.
  intros [Ht Hc Hm Hg [pre Hcur] Hp]. unfold chunk_step.
  destruct ((token_count st + word_count p >? max_tokens)
            && nonempty (current st)) eqn:Hclose.
  - (* the buffer is closed into a chunk *)
    apply andb_prop in Hclose as [_ Hne].
    assert (Hcne : current st <> []) by (destruct (current st); easy).
    assert (Hseg : segment (current st) (done ++ [p])).
    { exists pre, [p]. now rewrite Hcur, <- app_assoc. }
    exists (gs ++ [current st]).
    destruct (overlap >? 0) eqn:Hov.
    + pose proof (overlap_walk_sum (rev (current st)) [] 0 eq_refl) as Hs.
      destruct (overlap_walk_suffix (rev (current st)) [] 0) as [pre' Hsuf].
      destruct (overlap_walk overlap (rev (current st)) [] 0) as [ops otk].
      simpl in Hs, Hsuf |- *. rewrite rev_involutive, app_nil_r in Hsuf.
      split; simpl.
      * rewrite sum_words_app, Hs. simpl. lia.
      * apply Forall_app. split; [exact Hc|]. constructor; [|constructor].
        simpl. now rewrite word_count_join, Ht.
      * now rewrite !map_app, Hm.
      * apply Forall_app. split.
        -- eapply Forall_impl; [|exact Hg]. intros g [? ?].
           split; [assumption|now apply segment_snoc].
        -- constructor; [|constructor]. now split.
      * exists (pre ++ pre'). now rewrite Hcur, Hsuf, <- !app_assoc.
      * intros Hle. apply Z.gtb_lt in Hov. lia.
    + split; simpl.
      * lia.
      * apply Forall_app. split; [exact Hc|]. constructor; [|constructor].
        simpl. now rewrite word_count_join, Ht.
      * now rewrite !map_app, Hm.
      * apply Forall_app. split.
        -- eapply Forall_impl; [|exact Hg]. intros g [? ?].
           split; [assumption|now apply segment_snoc].
        -- constructor; [|constructor]. now split.
      * now exists (done).
      * intros Hle. rewrite concat_app. simpl.
        rewrite app_nil_r, (Hp Hle), <- !app_assoc. reflexivity.
  - (* the paragraph joins the buffer *)
    exists gs. split; simpl.
    + rewrite sum_words_app, Ht. simpl. lia.
    + exact Hc.
    + exact Hm.
    + eapply Forall_impl; [|exact Hg]. intros g [? ?].
      split; [assumption|now apply segment_snoc].
    + exists pre. now rewrite Hcur, <- app_assoc.
    + intros Hle. now rewrite (Hp Hle), <- app_assoc.
Qed.

Lemma chunk_loop_inv ps : forall done gs st,
  chunker_inv overlap done gs st ->
  exists gs',
    chunker_inv overlap (done ++ ps) gs' (chunk_loop fid max_tokens overlap ps st).
Proof.
  induction ps as [|p ps IH]; intros done gs st Hinv; simpl.
  - exists gs. now rewrite app_nil_r.
  - destruct (chunk_step_inv _ _ _ p Hinv) as [gs1 H1].
    destruct (IH _ _ _ H1) as [gs2 H2].
    exists gs2. now rewrite <- app_assoc in H2.
Qed.

(** What [chunk_text] returns on the paragraphs [ps]. *)
Lemma chunk_finish_inv ps :
  let out := chunk_finish fid
               (chunk_loop fid max_tokens overlap ps (mkChunker [] [] 0 0)) in
  Forall (fun c => tokens c = Some (word_count (content c))) out /\
  exists gs,
    map content out = map (join blank) gs /\
    Forall (fun g => g <> [] /\ segment g ps) gs /\
    (overlap <= 0 -> ps = List.concat gs).
Proof.
  destruct (chunk_loop_inv ps _ _ _ chunker_inv_init) as [gs H]. simpl in H.
  destruct H as [Ht Hc Hm Hg [pre Hcur] Hp]. unfold chunk_finish.
  set (st := chunk_loop fid max_tokens overlap ps (mkChunker [] [] 0 0)) in *.
  destruct (nonempty (current st)) eqn:Hne.
  - split.
    + apply Forall_app. split; [exact Hc|]. constructor; [|constructor].
      simpl. now rewrite word_count_join, Ht.
    + exists (gs ++ [current st]). repeat split.
      * rewrite !map_app, Hm. reflexivity.
      * apply Forall_app. split; [exact Hg|]. constructor; [|constructor].
        split; [destruct (current st); easy|].
        exists pre, []. now rewrite app_nil_r.
      * intros Hle. rewrite concat_app. simpl.
        now rewrite app_nil_r, <- (Hp Hle).
  - assert (Ecur : current st = []) by (destruct (current st); easy).
    split; [exact Hc|]. exists gs. repeat split; auto.
    intros Hle. rewrite (Hp Hle), Ecur. now rewrite app_nil_r.
Qed.

End ChunkerFacts.

(* ================================================================== *)
(** ** Paragraph groups and their positions *)

Section Groups.

Import Py.

Lemma positions_concat (gs : list (list string)) : forall off,
  List.concat (positions off gs) = seq off (List.length (List.concat gs)).
Proof.
  induction gs as [|g gs IH]; intros off; simpl.
  - reflexivity.
  - rewrite IH, length_app, seq_app. reflexivity.
Qed.

Lemma paragraphs_at_seq (pre g post : list string) :
  paragraphs_at (pre ++ g ++ post) (seq (List.length pre) (List.length g)) = g.
Proof.
  unfold paragraphs_at. revert pre; induction g as [|x g IH]; intros pre.
  - reflexivity.
  - simpl. rewrite nth_middle. f_equal.
    specialize (IH (pre ++ [x])).
    rewrite length_app, <- app_assoc in IH. simpl in IH.
    rewrite Nat.add_1_r in IH. exact IH.
Qed.

Lemma paragraphs_at_positions (gs : list (list string)) : forall pre,
  map (paragraphs_at (pre ++ List.concat gs)) (positions (List.length pre) gs)
  = gs.
Proof.
  induction gs as [|g gs IH]; intros pre; simpl.
  - reflexivity.
  - rewrite paragraphs_at_seq. f_equal.
    specialize (IH (pre ++ g)). rewrite length_app, <- app_assoc in IH.
    exact IH.
Qed.

Lemma NoDup_concat_disjoint (gs : list (list nat)) :
  NoDup (List.concat gs) ->
  forall i j k, i <> j -> In k (nth i gs []) -> ~ In k (nth j gs []).
Proof.
  induction gs as [|g gs IH]; intros Hnd i j k Hij Hi Hj.
  - destruct i; contradiction.
  - simpl in Hnd.
    assert (Hsep : forall n, In k g -> In k (nth n gs []) -> False).
    { intros n Hg Hn. revert Hnd Hg Hn. clear. revert n.
      induction g as [|x g IHg]; intros n Hnd Hg Hn; [contradiction|].
      simpl in Hnd. inversion Hnd as [|? ? Hx Hnd']; subst.
      destruct Hg as [->|Hg]; [|now apply (IHg n)].
      apply Hx, in_or_app. right.
      destruct (Nat.lt_ge_cases n (List.length gs)) as [Hlt|Hge].
      - apply in_concat. exists (nth n gs []). split; [|exact Hn].
        now apply nth_In.
      - rewrite nth_overflow in Hn by exact Hge. contradiction. }
    destruct i as [|i], j as [|j]; simpl in Hi, Hj.
    + now apply Hij.
    + now apply (Hsep j).
    + now apply (Hsep i).
    + apply (IH (NoDup_app_remove_l _ _ Hnd) i j k); auto.
Qed.

Lemma Forall_of_map (A B C : Type) (f : A -> C) (h : B -> C) (P : B -> Prop)
    (l : list A) : forall gs,
  map f l = map h gs -> Forall P gs ->
  Forall (fun c => exists g, P g /\ f c = h g) l.
Proof.
  induction l as [|c l IH]; intros gs Hm HP.
  - constructor.
  - destruct gs as [|g gs]; [discriminate|].
    simpl in Hm. injection Hm as Hc Hl. inversion HP; subst.
    constructor; [now exists g|]. now apply (IH gs).
Qed.

End Groups.

(* ================================================================== *)
(** ** The chunker: paragraphs *)

Section Paragraphs.

Import Py.

Local Notation "a +s+ b" := (String.append a b)
  (at level 60, right associativity).

Lemma has_blank_app_l (a b : string) :
  has_blank (a +s+ b) = false -> has_blank a = false.
Proof.
  induction a as [|c r IH]; intros H; [reflexivity|].
  destruct r as [|c' r']; [reflexivity|].
  change (has_blank (String c (String c' (r' +s+ b))) = false) in H.
  cbn [has_blank] in H |- *. apply orb_false_iff in H as [H1 H2].
  rewrite H1. apply IH. exact H2.
Qed.

Lemma split_paragraphs_whole (a : string) :
  has_blank a = false ->
  _split_paragraphs a = if truthy (strip a) then [strip a] else [].
Proof.
  intros H. unfold _split_paragraphs. rewrite (split_blank_whole a H).
  simpl. destruct (truthy (strip a)); reflexivity.
Qed.

Lemma split_paragraphs_cut (a b : string) :
  has_blank (a +s+ String LF EmptyString) = false ->
  _split_paragraphs (a +s+ blank +s+ b)
  = _split_paragraphs a ++ _split_paragraphs b.
Proof.
  intros H. rewrite (split_paragraphs_whole a (has_blank_app_l _ _ H)).
  unfold _split_paragraphs. rewrite (split_blank_cut a b H). simpl.
  destruct (truthy (strip a)); reflexivity.
Qed.

Lemma split_paragraphs_trimmed (text : string) :
  Forall (fun p => p <> EmptyString /\ starts_with_space p = false
                   /\ ends_with_space p = false)
         (_split_paragraphs text).
Proof.
  unfold _split_paragraphs. apply Forall_map, Forall_forall.
  intros x Hx. apply filter_In in Hx as [_ Hx].
  destruct (strip_trimmed x) as [Hs He].
  repeat split; auto. intros E. rewrite E in Hx. discriminate.
Qed.

End Paragraphs.

(* ================================================================== *)
(** ** Properties of the chunker *)

Section ChunkerProperties.

Import Py.

Local Notation "a +s+ b" := (String.append a b)
  (at level 60, right associativity).

(** C6, as the code has it.  Paragraphs are cut at two consecutive line
    feeds and nowhere else: a text without two consecutive line feeds is one
    paragraph (none when it is all whitespace), and a text is cut at its
    first pair of line feeds, the rest being cut in the same way.  Every
    paragraph returned is non-empty and starts and ends with a character that
    is not whitespace. *)
Theorem split_paragraphs_at_double_newlines :
  (forall a, has_blank a = false ->
     _split_paragraphs a = if truthy (strip a) then [strip a] else [])
  /\ (forall a b, has_blank (a +s+ String LF EmptyString) = false ->
        _split_paragraphs (a +s+ blank +s+ b)
        = _split_paragraphs a ++ _split_paragraphs b)
  /\ (forall text,
        Forall (fun p => p <> EmptyString /\ starts_with_space p = false
                         /\ ends_with_space p = false)
               (_split_paragraphs text)).
Proof.
  split; [|split].
  - exact split_paragraphs_whole.
  - exact split_paragraphs_cut.
  - exact split_paragraphs_trimmed.
Qed.

Lemma split_paragraphs_at_double_newlines_witness :
  has_blank "one paragraph" = false
  /\ _split_paragraphs "one paragraph" = ["one paragraph"]
  /\ has_blank ("first" +s+ String LF EmptyString) = false
  /\ _split_paragraphs ("first" +s+ blank +s+ "second")
     = _split_paragraphs "first" ++ _split_paragraphs "second".
Proof.
  split; [reflexivity|]. split.
  - exact (proj1 split_paragraphs_at_double_newlines "one paragraph" eq_refl).
  - split; [reflexivity|].
    exact (proj1 (proj2 split_paragraphs_at_double_newlines)
                 "first" "second" eq_refl).
Defined.

(** C6, as stated, fails: were paragraphs separated by every blank line,
    whitespace-only lines included, no paragraph would hold such a line;
    ["a\n \nb"] comes back as one paragraph that does. *)
Lemma split_paragraphs_keeps_whitespace_line :
  ~ (forall text,
       Forall (fun p => has_whitespace_line p = false) (_split_paragraphs text)).
Proof.
  intros H. specialize (H text_with_space_line).
  vm_compute in H. inversion H as [|? ? Hp _]. discriminate Hp.
Qed.

(** C7: a chunk is made of whole paragraphs, a non-empty run of consecutive
    paragraphs of the text joined by blank lines; and a text of one
    paragraph with more words than [max_tokens] gives one chunk, that
    paragraph. *)
Theorem chunk_text_never_splits_a_paragraph
    (text fid : string) (max_tokens overlap : Z) :
  Forall (fun c => exists g, (g <> [] /\ segment g (_split_paragraphs text))
                             /\ content c = join blank g)
         (chunk_text text fid max_tokens overlap)
  /\ forall p, _split_paragraphs text = [p] -> word_count p > max_tokens ->
       chunk_text text fid max_tokens overlap
       = [mkChunk fid 0 p (Some (word_count p)) None].
Proof.
  split.
  - unfold chunk_text. destruct (nonempty (_split_paragraphs text)).
    + destruct (chunk_finish_inv fid max_tokens overlap (_split_paragraphs text))
        as [_ (gs & Hm & Hg & _)].
      exact (Forall_of_map _ _ _ _ _ _ _ _ Hm Hg).
    + constructor.
  - intros p Hp _. unfold chunk_text. rewrite Hp. cbn [nonempty].
    unfold chunk_loop, chunk_step, chunk_finish. cbn.
    rewrite Bool.andb_false_r. reflexivity.
Qed.

Lemma chunk_text_never_splits_a_paragraph_witness :
  _split_paragraphs "one two three four five" = ["one two three four five"]
  /\ word_count "one two three four five" > 3
  /\ chunk_text "one two three four five" "doc" 3 2
     = [mkChunk "doc" 0 "one two three four five" (Some 5) None].
Proof.
  split; [reflexivity|]. split; [reflexivity|].
  exact (proj2 (chunk_text_never_splits_a_paragraph
                  "one two three four five" "doc" 3 2)
               "one two three four five" eq_refl eq_refl).
Defined.

(** C8: with [overlap = 0] the chunks partition the paragraphs of the text.
    There are groups of paragraph positions, one per chunk, such that each
    chunk is its group's paragraphs joined, the groups in order run through
    all positions, and no position lies in two groups. *)
Theorem chunk_text_without_overlap_is_disjoint
    (text fid : string) (max_tokens : Z) :
  exists groups : list (list nat),
    map content (chunk_text text fid max_tokens 0)
    = map (fun g => join blank (paragraphs_at (_split_paragraphs text) g)) groups
    /\ List.concat groups = seq 0 (List.length (_split_paragraphs text))
    /\ forall i j k, i <> j ->
         In k (nth i groups []) -> ~ In k (nth j groups []).
Proof.
  unfold chunk_text. destruct (nonempty (_split_paragraphs text)) eqn:Hne.
  - destruct (chunk_finish_inv fid max_tokens 0 (_split_paragraphs text))
      as [_ (gs & Hm & _ & Hp)].
    specialize (Hp (Z.le_refl 0)).
    exists (positions 0 gs).
    assert (Hc : List.concat (positions 0 gs)
                 = seq 0 (List.length (_split_paragraphs text))).
    { rewrite positions_concat, <- Hp. reflexivity. }
    split; [|split].
    + assert (Hpos : map (paragraphs_at (_split_paragraphs text))
                         (positions 0 gs) = gs).
      { rewrite Hp. exact (paragraphs_at_positions gs []). }
      rewrite Hm, <- (map_map (paragraphs_at (_split_paragraphs text))
                              (join blank)).
      rewrite Hpos. reflexivity.
    + exact Hc.
    + apply NoDup_concat_disjoint. rewrite Hc. apply seq_NoDup.
  - exists []. destruct (_split_paragraphs text); [|discriminate].
    repeat split. intros i j k _ Hi. destruct i; contradiction.
Qed.

(** C9: every chunk that [chunk_text] emits has, as [tokens], the number of
    whitespace-delimited words of its [content]. *)
Theorem chunk_text_tokens_count_words
    (text fid : string) (max_tokens overlap : Z) :
  Forall (fun c => tokens c = Some (word_count (content c)))
         (chunk_text text fid max_tokens overlap).
Proof.
  unfold chunk_text. destruct (nonempty (_split_paragraphs text)).
  - apply chunk_finish_inv.
  - constructor.
Qed.

End ChunkerProperties.

(* ================================================================== *)
(** ** Running computations *)

Section Running.

Lemma bind_ok {A B} (m : M A) (k : A -> M B) s a s1 :
  m s = Some (Ok a, s1) -> bind m k s = k a s1.
Proof. unfold bind. now intros ->. Qed.

Lemma bind_raise {A B} (m : M A) (k : A -> M B) s e s1 :
  m s = Some (Raise e, s1) -> bind m k s = Some (Raise e, s1).
Proof. unfold bind. now intros ->. Qed.

Lemma steps_ret {A} (a : A) s : steps (ret a) s a s [].
Proof. split; [reflexivity|now rewrite app_nil_r]. Qed.

Lemma steps_lift {A} (a : A) s : steps (lift (Ok a)) s a s [].
Proof. split; [reflexivity|now rewrite app_nil_r]. Qed.

Lemma steps_emit (e : Event) s :
  steps (emit e) s tt
        (mkStore (db_chunks s) (db_page_token s) (trace s ++ [e])) [e].
Proof. split; reflexivity. Qed.

Lemma steps_set_chunks f s :
  steps (set_chunks f) s tt
        (mkStore (f (db_chunks s)) (db_page_token s) (trace s)) [].
Proof. split; [reflexivity|simpl; now rewrite app_nil_r]. Qed.

Lemma steps_bind {A B} (m : M A) (k : A -> M B) s a s1 e1 b s2 e2 :
  steps m s a s1 e1 -> steps (k a) s1 b s2 e2 ->
  steps (bind m k) s b s2 (e1 ++ e2).
Proof.
  intros [Hm Ht1] [Hk Ht2]. split.
  - now rewrite (bind_ok m k s a s1 Hm).
  - now rewrite Ht2, Ht1, app_assoc.
Qed.

Lemma upserts_app (t u : list Event) : upserts (t ++ u) = upserts t ++ upserts u.
Proof. apply flat_map_app. Qed.

Lemma process_calls_app (t u : list Event) :
  process_calls (t ++ u) = process_calls t ++ process_calls u.
Proof. apply flat_map_app. Qed.

Lemma chunk_writes_app (t u : list Event) :
  chunk_writes (t ++ u) = chunk_writes t ++ chunk_writes u.
Proof. apply filter_app. Qed.

Lemma quiet_silent (evs : list Event) :
  forallb quiet evs = true -> upserts evs = [] /\ process_calls evs = [].
Proof.
  induction evs as [|e evs IH]; simpl; [auto|].
  intros H. apply andb_prop in H as [He Hr]. destruct (IH Hr) as [-> ->].
  destruct e; simpl in *; try discriminate; auto.
Qed.

End Running.

(* ================================================================== *)
(** ** Timestamps *)

Section Timestamps.

Variable W : World.
Hypothesis HP : parser_contract W.

Lemma normalise_timestamp_ok (value : option string) :
  _normalise_timestamp W value = Ok (match value with
                                     | None => None
                                     | Some v =>
                                         if Py.truthy v then
                                           match isoparse W v with
                                           | Ok d => Some (isoformat W d)
                                           | Raise _ => None
                                           end
                                         else None
                                     end).
Proof.
  unfold _normalise_timestamp. destruct value as [v|]; [|reflexivity].
  destruct (Py.truthy v); [|reflexivity]. simpl.
  pose proof (HP v) as Hp.
  destruct (isoparse W v) as [d|e]; [reflexivity|].
  destruct Hp as [-> | ->]; reflexivity.
Qed.

End Timestamps.

(* ================================================================== *)
(** ** The clients and the annotator in a healthy world *)

Section Healthy.

Variable W : World.
Hypothesis HW : healthy W.

Lemma modified_at_ok (f : DriveFile) :
  _normalise_timestamp W (modified_time f) = Ok (modified_at_of W f).
Proof.
  unfold modified_at_of.
  now rewrite (normalise_timestamp_ok W (healthy_parser W HW)).
Qed.

Lemma upsert_ok (p : Payload) s :
  exists rid s', steps (upsert_file_metadata W p) s rid s' [EvUpsert p].
Proof.
  unfold upsert_file_metadata, steps, bind, emit, lift, ret, raise.
  pose proof (healthy_upsert W HW p) as Hp.
  destruct (rpc_upsert_file_metadata W p) as [[[|x l]|x|]|e];
    try contradiction; simpl; eauto.
Qed.

Lemma export_ok (i m : string) s :
  exists text s', steps (export_file W i m) s text s' [EvExport i m].
Proof.
  unfold export_file, steps, bind, emit, lift.
  pose proof (healthy_export W HW i m) as Hp.
  destruct (files_export W i m) as [text|e]; [|contradiction].
  simpl; eauto.
Qed.

Lemma embed_chunk_ok (c : Chunk) s :
  exists c' s', steps (embed_chunk W c) s c' s' [EvEmbed (content c)].
Proof.
  unfold embed_chunk, steps, bind, emit, lift, ret, raise.
  pose proof (healthy_embeddings W HW (content c)) as Hp.
  destruct (openai_embeddings W (content c)) as [r|e]; [|contradiction].
  destruct (reply_data r) as [[|x l]|]; try congruence; simpl; eauto.
Qed.

Lemma embed_loop_ok (cs : list Chunk) : forall s,
  exists cs' s' evs,
    steps (embed_loop W cs) s cs' s' evs /\ forallb quiet evs = true.
Proof.
  induction cs as [|c cs IH]; intros s; simpl.
  - exists [], s, []. split; [apply steps_ret|reflexivity].
  - destruct (embed_chunk_ok c s) as (c' & s1 & H1).
    destruct (IH s1) as (cs' & s2 & evs & H2 & Hq).
    exists (c' :: cs'), s2, ([EvEmbed (content c)] ++ evs ++ []). split.
    + eapply steps_bind; [exact H1|].
      eapply steps_bind; [exact H2|]. apply steps_ret.
    + simpl. now rewrite app_nil_r.
Qed.

Lemma embed_chunks_ok (cs : list Chunk) s :
  exists cs' s' evs,
    steps (embed_chunks W cs) s cs' s' evs /\ forallb quiet evs = true.
Proof.
  unfold embed_chunks. destruct (has_embeddings (cfg W)); simpl.
  - apply embed_loop_ok.
  - exists cs, (mkStore (db_chunks s) (db_page_token s)
                        (trace s ++ [EvWarning LogNoApiKey])),
           ([EvWarning LogNoApiKey] ++ []).
    split; [|reflexivity].
    eapply steps_bind; [apply steps_emit|apply steps_ret].
Qed.

Lemma update_chunks_ok (fid : string) (rows : list Chunk) s :
  exists s' evs,
    steps (update_chunks W fid rows) s tt s' evs /\ forallb quiet evs = true.
Proof.
  unfold update_chunks, steps, bind, emit, lift, ret, set_chunks.
  rewrite (healthy_delete W HW fid). simpl.
  destruct (nonempty rows); simpl.
  - rewrite (healthy_insert W HW rows). simpl.
    eexists _, [EvDeleteChunks fid; EvInsertChunks rows].
    repeat split. now rewrite <- app_assoc.
  - eexists _, [EvDeleteChunks fid]. repeat split.
Qed.

Lemma process_ok (f : DriveFile) (rid : string) s :
  exists s' evs,
    steps (_process_file_content W f rid) s tt s'
          (EvProcessContent f rid :: evs)
    /\ forallb quiet evs = true.
Proof.
  unfold _process_file_content.
  destruct (SUPPORTED_EXPORTS (mime_type f)) as [mt|].
  - set (s0 := mkStore (db_chunks s) (db_page_token s)
                       (trace s ++ [EvProcessContent f rid])).
    destruct (export_ok (id f) mt s0) as (text & s1 & H1).
    destruct (embed_chunks_ok (chunk_text text rid 800 200) s1)
      as (cs & s2 & evs2 & H2 & Hq2).
    destruct (update_chunks_ok rid (map as_payload cs) s2)
      as (s3 & evs3 & H3 & Hq3).
    eexists _, ([EvExport (id f) mt] ++ evs2 ++ evs3 ++ [_]). split.
    + change (EvProcessContent f rid :: ?l)
        with ([EvProcessContent f rid] ++ l).
      eapply steps_bind; [apply steps_emit|].
      eapply steps_bind; [exact H1|].
      eapply steps_bind; [exact H2|].
      eapply steps_bind; [exact H3|]. apply steps_emit.
    + rewrite !forallb_app, Hq2, Hq3. reflexivity.
  - eexists _, [_]. split.
    + change (EvProcessContent f rid :: ?l)
        with ([EvProcessContent f rid] ++ l).
      eapply steps_bind; apply steps_emit.
    + reflexivity.
Qed.

End Healthy.

(* ================================================================== *)
(** ** The walk of a listed tree *)

Section Walk.

Variable W : World.
Hypothesis HW : healthy W.

Lemma or_str_twice (x : option string) (r : string) :
  Py.or_str (Some (Py.or_str x r)) r = Py.or_str x r.
Proof.
  unfold Py.or_str. destruct x as [v|].
  - destruct (Py.truthy v) eqn:E; [now rewrite E|].
    now destruct (Py.truthy r).
  - now destruct (Py.truthy r).
Qed.

Lemma or_stack_snoc (stack : list string) (x folder : string) :
  or_stack (Some (stack ++ [x])) folder = stack ++ [x].
Proof. unfold or_stack. destruct stack; reflexivity. Qed.

Lemma depth_le_forest (k : tree) (ks : list tree) :
  In k ks -> (depth k <= forest_depth ks)%nat.
Proof.
  induction ks as [|x ks IH]; [contradiction|].
  intros [->|H]; simpl; [lia|]. specialize (IH H). lia.
Qed.

Lemma list_pages_ok (n : nat) : forall folder token l,
  listing W n folder token = Some l ->
  forall fuel, (n <= fuel)%nat ->
  forall items s, exists s' evs,
    steps (list_pages W fuel folder token items) s (items ++ l) s' evs
    /\ forallb quiet evs = true.
Proof.
  induction n as [|n IH]; intros folder token l Hl fuel Hn items s;
    [discriminate|].
  destruct fuel as [|fuel]; [lia|]. simpl in Hl |- *.
  destruct (files_list W folder token) as [resp|e] eqn:E; [|discriminate].
  set (s0 := mkStore (db_chunks s) (db_page_token s)
                     (trace s ++ [EvListChildren folder token])).
  set (here := map drive_file_of (response_files resp)) in *.
  destruct (nextPageToken resp) as [t|] eqn:Et;
    [destruct (Py.truthy t) eqn:Ett|].
  - destruct (listing W n folder (Some t)) as [rest|] eqn:Er; [|discriminate].
    injection Hl as <-.
    destruct (IH folder (Some t) rest Er fuel ltac:(lia) (items ++ here) s0)
      as (s' & evs & Hrun & Hq).
    exists s', ([EvListChildren folder token] ++ [] ++ evs). split.
    + eapply steps_bind; [apply steps_emit|].
      eapply steps_bind; [apply steps_lift|].
      cbn beta iota. rewrite Et, Ett. fold here.
      rewrite app_assoc. exact Hrun.
    + simpl. exact Hq.
  - injection Hl as <-.
    exists s0, ([EvListChildren folder token] ++ [] ++ []). split.
    + eapply steps_bind; [apply steps_emit|].
      eapply steps_bind; [apply steps_lift|].
      cbn beta iota. rewrite Et, Ett. apply steps_ret.
    + reflexivity.
  - injection Hl as <-.
    exists s0, ([EvListChildren folder token] ++ [] ++ []). split.
    + eapply steps_bind; [apply steps_emit|].
      eapply steps_bind; [apply steps_lift|].
      cbn beta iota. rewrite Et. apply steps_ret.
    + reflexivity.
Qed.

Lemma bootstrap_items_ok (n fuel : nat) (stack : list string) :
  walk_ok W n fuel ->
  forall kids s,
    forest_listed W n kids ->
    (n + forest_depth kids <= S fuel)%nat ->
    exists s' evs,
      steps (for_each (map root_of kids)
                      (bootstrap_item W (bootstrap_folder W fuel) stack))
            s tt s' evs
      /\ upserts evs = expected_upserts W stack kids
      /\ map fst (process_calls evs) = flat_map leaf_files kids.
Proof.
  intros IHf. induction kids as [|k kids IH]; intros s Hl Hd.
  - exists s, []. repeat split. now rewrite app_nil_r.
  - destruct Hl as [Hk Hl].
    assert (Hdk : (n + depth k <= S fuel)%nat) by (simpl in Hd; lia).
    assert (Hdr : (n + forest_depth kids <= S fuel)%nat) by (simpl in Hd; lia).
    set (f := root_of k).
    set (p := metadata_payload f (_derive_path (stack ++ [id f]))
                               (modified_at_of W f)).
    destruct (upsert_ok W HW p s) as (rid & s1 & H1).
    set (s2 := mkStore (db_chunks s1) (db_page_token s1)
                       (trace s1 ++ [EvInfo (LogUpserted (name f) rid)])).
    (* the node itself, then what is below it *)
    assert (Hnode : exists s3 evs3,
      steps (if String.eqb (mime_type f) FOLDER_MIME
             then bootstrap_folder W fuel (Some (id f)) (Some (stack ++ [id f]))
             else _process_file_content W f rid) s2 tt s3 evs3
      /\ p :: upserts evs3 = expected_upserts W stack [k]
      /\ map fst (process_calls evs3) = leaf_files k).
    { destruct k as [g|g gk]; simpl in Hk; subst f; simpl root_of in *.
      - unfold is_folder in Hk. rewrite Hk.
        destruct (process_ok W HW g rid s2) as (s3 & evs & H3 & Hq).
        destruct (quiet_silent evs Hq) as [Hu Hp].
        exists s3, (EvProcessContent g rid :: evs). split; [exact H3|].
        simpl. rewrite Hu, Hp. split; reflexivity.
      - destruct Hk as (Hf & Hlist & Hgk). unfold is_folder in Hf. rewrite Hf.
        destruct (IHf (Some (id g)) (Some (stack ++ [id g])) gk s2 Hlist Hgk)
          as (s3 & evs & H3 & Hu & Hp);
          [simpl in Hdk; fold (forest_depth gk) in Hdk; lia|].
        exists s3, evs. split; [exact H3|]. split.
        + rewrite Hu, or_stack_snoc. unfold expected_upserts. simpl.
          rewrite app_nil_r, map_map. f_equal.
          apply map_ext. intros x. simpl. now rewrite <- app_assoc.
        + rewrite Hp. reflexivity. }
    destruct Hnode as (s3 & evs3 & H3 & Hu3 & Hp3).
    destruct (IH s3 Hl Hdr) as (s4 & evs4 & H4 & Hu4 & Hp4).
    exists s4, (([] ++ [EvUpsert p] ++ [EvInfo (LogUpserted (name f) rid)]
                 ++ evs3) ++ evs4).
    split; [|split].
    + simpl map. simpl for_each. fold f.
      eapply steps_bind; [|exact H4].
      unfold bootstrap_item. fold f.
      eapply steps_bind.
      { rewrite (modified_at_ok W HW f). apply steps_lift. }
      eapply steps_bind; [exact H1|].
      eapply steps_bind; [apply steps_emit|]. exact H3.
    + assert (Hsplit : expected_upserts W stack (k :: kids)
                       = expected_upserts W stack [k]
                         ++ expected_upserts W stack kids).
      { unfold expected_upserts. simpl. now rewrite app_nil_r, map_app. }
      rewrite Hsplit, <- Hu3, upserts_app, Hu4. reflexivity.
    + rewrite process_calls_app, map_app, Hp4. simpl. now rewrite Hp3.
Qed.

Lemma bootstrap_walk (n : nat) : forall fuel, walk_ok W n fuel.
Proof.
  induction fuel as [|fuel IH]; intros folder stack kids s Hlist Hl Hd.
  - assert (n = O) by lia. subst n. discriminate.
  - set (fo := Py.or_str folder (root_id W)) in *.
    destruct (list_pages_ok n fo None _ Hlist (S fuel) ltac:(lia) [] s)
      as (s1 & evs1 & H1 & Hq1).
    destruct (quiet_silent evs1 Hq1) as [Hu1 Hp1].
    set (items := map root_of kids) in *.
    set (note := EvInfo (LogBootstrapFound (List.length items) fo)).
    destruct (bootstrap_items_ok n fuel (or_stack stack fo) IH kids
                (mkStore (db_chunks s1) (db_page_token s1)
                         (trace s1 ++ [note])) Hl Hd)
      as (s' & evs & H & Hu & Hp).
    exists s', (evs1 ++ [note] ++ evs). split; [|split].
    + change (bootstrap_folder W (S fuel) folder stack)
        with (items0 <- list_children W (S fuel) (Some fo) ;;
              emit (EvInfo (LogBootstrapFound (List.length items0) fo)) ;;;
              for_each items0
                (bootstrap_item W (bootstrap_folder W fuel)
                                (or_stack stack fo))).
      eapply steps_bind.
      { unfold list_children.
        replace (Py.or_str (Some fo) (root_id W)) with fo
          by (symmetry; apply or_str_twice).
        exact H1. }
      eapply steps_bind; [apply steps_emit|]. exact H.
    + rewrite !upserts_app, Hu1. simpl. exact Hu.
    + rewrite !process_calls_app, Hp1. simpl. exact Hp.
Qed.

End Walk.

(* ================================================================== *)
(** ** Counting the nodes of a tree *)

Section Trees.

Lemma tree_induction (P : tree -> Prop) :
  (forall f, P (Leaf f)) ->
  (forall f kids, Forall P kids -> P (Folder f kids)) ->
  forall t, P t.
Proof.
  intros HL HF. fix IH 1. intros [f|f kids].
  - apply HL.
  - apply HF. revert kids. fix IHk 1. intros [|k kids].
    + constructor.
    + constructor; [apply IH|apply IHk].
Qed.

Lemma walk_length (t : tree) :
  List.length (walk t) = (folders t + leaves t)%nat.
Proof.
  induction t as [f|f kids IH] using tree_induction; simpl; [reflexivity|].
  f_equal. rewrite length_map.
  induction IH as [|k kids Hk _ IHk]; simpl; [reflexivity|].
  rewrite length_app, Hk, IHk. lia.
Qed.

Lemma leaf_files_length (t : tree) : List.length (leaf_files t) = leaves t.
Proof.
  induction t as [f|f kids IH] using tree_induction; simpl; [reflexivity|].
  induction IH as [|k kids Hk _ IHk]; simpl; [reflexivity|].
  rewrite length_app, Hk, IHk. reflexivity.
Qed.

Lemma forest_walk_length (kids : list tree) :
  List.length (flat_map walk kids)
  = (forest_folders kids + forest_leaves kids)%nat.
Proof.
  unfold forest_folders, forest_leaves.
  induction kids as [|k kids IH]; simpl; [reflexivity|].
  rewrite length_app, walk_length, IH. lia.
Qed.

Lemma forest_leaf_files_length (kids : list tree) :
  List.length (flat_map leaf_files kids) = forest_leaves kids.
Proof.
  unfold forest_leaves.
  induction kids as [|k kids IH]; simpl; [reflexivity|].
  rewrite length_app, leaf_files_length, IH. reflexivity.
Qed.

(** The order of siblings changes neither count. *)
Lemma forest_perm_counts (l l' : list tree) :
  forest_perm l l' ->
  forest_folders l = forest_folders l' /\ forest_leaves l = forest_leaves l'.
Proof.
  unfold forest_folders, forest_leaves.
  apply (forest_perm_mut
           (fun t t' => folders t = folders t' /\ leaves t = leaves t')
           (fun l l' => list_sum (map folders l) = list_sum (map folders l')
                        /\ list_sum (map leaves l) = list_sum (map leaves l'))).
  - auto.
  - intros f ks ks' _ [HF HL]. simpl. now rewrite HF, HL.
  - auto.
  - intros t t' k k' _ [HF HL] _ [HF' HL']. simpl. lia.
  - intros t u k. simpl. lia.
  - intros l1 l2 l3 _ [HF HL] _ [HF' HL']. split; congruence.
Qed.


End Trees.

(* ================================================================== *)
(** ** When a request fails *)

Section Failures.

Variable W : World.

Lemma embed_chunk_frame (c : Chunk) s :
  exists r s',
    embed_chunk W c s = Some (r, s')
    /\ db_chunks s' = db_chunks s
    /\ chunk_writes (trace s') = chunk_writes (trace s)
    /\ (forall e, openai_embeddings W (content c) = Raise e -> r = Raise e).
Proof.
  unfold embed_chunk, bind, emit, lift, ret, raise.
  destruct (openai_embeddings W (content c)) as [d|e]; simpl.
  - destruct (reply_data d) as [[|x l]|]; simpl;
      eexists _, _; (split; [reflexivity|]); simpl;
      rewrite chunk_writes_app, app_nil_r; repeat split; discriminate.
  - eexists _, _. split; [reflexivity|]. simpl.
    rewrite chunk_writes_app, app_nil_r. repeat split. now intros ? [= ->].
Qed.

Lemma embed_loop_fails (cs : list Chunk) (c : Chunk) (e : exn) :
  In c cs -> openai_embeddings W (content c) = Raise e ->
  forall s, exists e' s',
    embed_loop W cs s = Some (Raise e', s')
    /\ db_chunks s' = db_chunks s
    /\ chunk_writes (trace s') = chunk_writes (trace s).
Proof.
  intros Hin He. induction cs as [|c0 cs IH]; intros s; [contradiction|].
  simpl. destruct (embed_chunk_frame c0 s) as (r & s1 & Hr & Hdb & Hw & Hfail).
  unfold bind at 1. rewrite Hr. destruct r as [c0'|e0].
  - destruct Hin as [->|Hin].
    + specialize (Hfail e He). discriminate.
    + destruct (IH Hin s1) as (e' & s2 & H2 & Hdb2 & Hw2).
      exists e', s2. unfold bind. rewrite H2.
      repeat split; congruence.
  - exists e0, s1. auto.
Qed.

Lemma embed_loop_frame (cs : list Chunk) : forall s,
  exists r s',
    embed_loop W cs s = Some (r, s')
    /\ db_chunks s' = db_chunks s
    /\ chunk_writes (trace s') = chunk_writes (trace s).
Proof.
  induction cs as [|c cs IH]; intros s; simpl.
  - now exists (Ok []), s.
  - destruct (embed_chunk_frame c s) as (r & s1 & Hr & Hdb & Hw & _).
    unfold bind at 1. rewrite Hr. destruct r as [c'|e].
    + destruct (IH s1) as (r2 & s2 & H2 & Hdb2 & Hw2).
      unfold bind at 1. rewrite H2. destruct r2 as [cs'|e2].
      * exists (Ok (c' :: cs')), s2. repeat split; congruence.
      * exists (Raise e2), s2. repeat split; congruence.
    + now exists (Raise e), s1.
Qed.

Lemma embed_chunks_frame (cs : list Chunk) s :
  exists r s',
    embed_chunks W cs s = Some (r, s')
    /\ db_chunks s' = db_chunks s
    /\ chunk_writes (trace s') = chunk_writes (trace s).
Proof.
  unfold embed_chunks. destruct (has_embeddings (cfg W)); simpl.
  - apply embed_loop_frame.
  - eexists _, _. split; [reflexivity|]. simpl.
    now rewrite chunk_writes_app, app_nil_r.
Qed.

Lemma embed_loop_length (cs : list Chunk) : forall s cs' s',
  embed_loop W cs s = Some (Ok cs', s') -> List.length cs' = List.length cs.
Proof.
  induction cs as [|c cs IH]; intros s cs' s' H; simpl in H.
  - now injection H as <- _.
  - unfold bind at 1 in H.
    destruct (embed_chunk W c s) as [[[c'|e] s1]|]; try discriminate.
    unfold bind at 1 in H.
    destruct (embed_loop W cs s1) as [[[cs1|e] s2]|] eqn:E; try discriminate.
    injection H as <- _. simpl. f_equal. exact (IH _ _ _ E).
Qed.

Lemma embed_chunks_length (cs : list Chunk) s : forall cs' s',
  embed_chunks W cs s = Some (Ok cs', s') -> List.length cs' = List.length cs.
Proof.
  intros cs' s'. unfold embed_chunks.
  destruct (has_embeddings (cfg W)); simpl.
  - apply embed_loop_length.
  - intros H. now injection H as <- _.
Qed.

Lemma webhook_loop_app (fuel : nat) (pre rest : list Change) :
  forall acc s,
    webhook_loop W fuel (pre ++ rest) acc s
    = match webhook_loop W fuel pre acc s with
      | Some (Ok p, s1) => webhook_loop W fuel rest p s1
      | Some (Raise e, s1) => Some (Raise e, s1)
      | None => None
      end.
Proof.
  induction pre as [|c pre IH]; intros acc s; simpl; [reflexivity|].
  destruct (change_file_id c) as [f|]; [|apply IH].
  unfold bind. destruct (handle_change W fuel f s) as [[[u|e] s1]|]; auto.
Qed.

Lemma webhook_loop_processed (fuel : nat) (changes : list Change) :
  forall acc s p s',
    webhook_loop W fuel changes acc s = Some (Ok p, s') ->
    p = acc ++ change_ids changes.
Proof.
  induction changes as [|c changes IH]; intros acc s p s' H; simpl in H.
  - injection H as <- _. now rewrite app_nil_r.
  - unfold change_ids. simpl. fold (change_ids changes).
    destruct (change_file_id c) as [f|].
    + unfold bind in H.
      destruct (handle_change W fuel f s) as [[[u|e] s1]|]; try discriminate.
      rewrite (IH _ _ _ _ H), <- app_assoc. reflexivity.
    + apply (IH _ _ _ _ H).
Qed.

End Failures.

(* ================================================================== *)
(** ** Properties of the reconciler *)

Section ReconcilerProperties.

(** C1: for a document whose text has been exported, when embeddings are
    configured and the embeddings request fails for a chunk of the document,
    the annotator raises, [_process_file_content] raises with it, and the
    chunk table is what it was: no delete and no insert request has been
    sent.  And whenever a run of [_process_file_content] has sent a delete
    or an insert request, the annotator had returned for all the chunks of
    the document before. *)
Theorem embedding_failure_keeps_the_stored_chunks
    (W : World) (f : DriveFile) (rid mt text : string) (s : Store) :
  SUPPORTED_EXPORTS (mime_type f) = Some mt ->
  files_export W (id f) mt = Ok text ->
  (has_embeddings (cfg W) = true ->
   forall c e,
     In c (chunk_text text rid 800 200) ->
     openai_embeddings W (content c) = Raise e ->
     (forall s0, exists e' s1,
        embed_chunks W (chunk_text text rid 800 200) s0 = Some (Raise e', s1))
     /\ exists e' s',
          _process_file_content W f rid s = Some (Raise e', s')
          /\ db_chunks s' = db_chunks s
          /\ chunk_writes (trace s') = chunk_writes (trace s))
  /\ (forall r s',
        _process_file_content W f rid s = Some (r, s') ->
        chunk_writes (trace s') <> chunk_writes (trace s) ->
        exists s1 cs s2,
          embed_chunks W (chunk_text text rid 800 200) s1 = Some (Ok cs, s2)
          /\ List.length cs = List.length (chunk_text text rid 800 200)).
Proof.
  intros Hmt Hexp. split.
  - intros Hemb c e Hin He. split.
    + intros s0. unfold embed_chunks. rewrite Hemb. simpl.
      destruct (embed_loop_fails W _ c e Hin He s0) as (e' & s1 & H & _).
      now exists e', s1.
    + unfold _process_file_content. rewrite Hmt.
      unfold export_file, embed_chunks. rewrite Hemb. simpl.
      unfold bind at 1, emit at 1. unfold bind at 1, bind at 1, emit at 1.
      unfold lift at 1. rewrite Hexp. unfold bind at 1.
      match goal with
      | |- context [embed_loop W ?cs ?s0] =>
          destruct (embed_loop_fails W cs c e Hin He s0)
            as (e' & s1 & H & Hdb & Hw)
      end.
      exists e', s1. rewrite H.
      split; [reflexivity|]. split; [exact Hdb|].
      rewrite Hw. simpl. now rewrite !chunk_writes_app, !app_nil_r.
  - intros r s' Hrun Hch.
    unfold _process_file_content in Hrun. rewrite Hmt in Hrun.
    unfold export_file in Hrun.
    unfold bind at 1, emit at 1 in Hrun.
    unfold bind at 1, bind at 1, emit at 1, lift at 1 in Hrun.
    rewrite Hexp in Hrun. unfold bind at 1 in Hrun.
    match type of Hrun with
    | context [embed_chunks W ?cs ?s1] =>
        destruct (embed_chunks_frame W cs s1) as (r1 & s2 & H1 & Hdb & Hw);
        pose proof (embed_chunks_length W cs s1) as Hlen
    end.
    rewrite H1 in Hrun. destruct r1 as [cs'|e1].
    + eexists _, cs', s2. split; [exact H1|]. exact (Hlen cs' s2 H1).
    + injection Hrun as <- <-. exfalso. apply Hch. rewrite Hw. simpl.
      now rewrite !chunk_writes_app, !app_nil_r.
Qed.

Lemma embedding_failure_keeps_the_stored_chunks_witness :
  exists e' s',
    _process_file_content world_without_embeddings doc1 "rec-doc1" sample_store
    = Some (Raise e', s')
    /\ db_chunks s' = db_chunks sample_store
    /\ chunk_writes (trace s') = chunk_writes (trace sample_store).
Proof.
  refine (proj2 (proj1 (embedding_failure_keeps_the_stored_chunks
                          world_without_embeddings doc1 "rec-doc1"
                          "text/plain" sample_text sample_store _ _)
                       _ (mkChunk "rec-doc1" 0 sample_text (Some 10) None)
                       HTTPStatusError _ _)).
  - reflexivity.
  - reflexivity.
  - reflexivity.
  - vm_compute. left. reflexivity.
  - reflexivity.
Defined.

(** C5: [handle_change] does nothing for a node exactly when the request
    for it returns an empty resource: then it logs a warning and returns,
    with no upsert and no content processing.  A request that raises, which
    is how the client library reports a node that no longer exists or is not
    accessible, is not absorbed: the handler raises the same exception right
    after the request, and the warning is not logged. *)
Theorem handle_change_of_a_missing_node_raises
    (W : World) (fuel : nat) (file_id : string) (s : Store) :
  (files_get W file_id = Ok None ->
   handle_change W fuel file_id s
   = Some (Ok tt,
           mkStore (db_chunks s) (db_page_token s)
                   (trace s ++ [EvGetFile file_id;
                                EvWarning (LogNotAccessible file_id)])))
  /\ (forall e,
        files_get W file_id = Raise e ->
        handle_change W fuel file_id s
        = Some (Raise e,
                mkStore (db_chunks s) (db_page_token s)
                        (trace s ++ [EvGetFile file_id]))).
Proof.
  split.
  - intros H. unfold handle_change, get_file, bind, emit, lift, ret.
    rewrite H. simpl. now rewrite <- app_assoc.
  - intros e H. unfold handle_change, get_file, bind, emit, lift.
    rewrite H. reflexivity.
Qed.

Lemma handle_change_of_a_missing_node_raises_witness :
  handle_change world_without_doc1 3 "doc1" sample_store
  = Some (Raise HttpError,
          mkStore (db_chunks sample_store) None [EvGetFile "doc1"])
  /\ handle_change sample_world 3 "gone" sample_store
     = Some (Ok tt,
             mkStore (db_chunks sample_store) None
                     [EvGetFile "gone"; EvWarning (LogNotAccessible "gone")]).
Proof.
  split.
  - exact (proj2 (handle_change_of_a_missing_node_raises
                    world_without_doc1 3 "doc1" sample_store)
                 HttpError eq_refl).
  - exact (proj1 (handle_change_of_a_missing_node_raises
                    sample_world 3 "gone" sample_store) eq_refl).
Defined.

(** C10, as the code has it.  [_normalise_timestamp] raises exactly when
    the value is a non-empty string for which the date parser raises
    something else than [ValueError] and [TypeError], and then it raises
    what the parser raised.  When it returns, it returns [None] for [None],
    for the empty string and for a string the parser rejected, the ISO
    format of the parsed date otherwise.  With a parser that rejects strings
    with [ValueError] or [TypeError] only, it returns for every argument. *)
Theorem normalise_timestamp_raises_only_what_the_parser_lets_through
    (W : World) (value : option string) :
  (forall e,
     _normalise_timestamp W value = Raise e
     <-> exists v,
           value = Some v /\ Py.truthy v = true /\ isoparse W v = Raise e
           /\ e <> ValueError /\ e <> TypeError)
  /\ (forall r,
        _normalise_timestamp W value = Ok r ->
        match value with
        | None => r = None
        | Some v =>
            if Py.truthy v then
              match isoparse W v with
              | Ok d => r = Some (isoformat W d)
              | Raise _ => r = None
              end
            else r = None
        end)
  /\ (parser_contract W -> exists r, _normalise_timestamp W value = Ok r).
Proof.
  split; [|split].
  - intros e. split.
    + destruct value as [v|]; simpl; [|discriminate].
      destruct (Py.truthy v) eqn:Hv; simpl; [|discriminate].
      destruct (isoparse W v) as [d|e'] eqn:Hp; [discriminate|].
      destruct e'; try discriminate; intros [= <-]; exists v;
        repeat split; auto; discriminate.
    + intros (v & -> & Hv & Hp & Hne1 & Hne2). simpl. rewrite Hv, Hp. simpl.
      destruct e; try reflexivity; contradiction.
  - intros r. destruct value as [v|]; simpl; [|now intros [= <-]].
    destruct (Py.truthy v); simpl; [|now intros [= <-]].
    destruct (isoparse W v) as [d|e]; [now intros [= <-]|].
    destruct e; try discriminate; now intros [= <-].
  - intros HP. rewrite (normalise_timestamp_ok W HP value). eexists.
    reflexivity.
Qed.

Lemma sample_parser_contract : parser_contract sample_world.
Proof.
  intros v. simpl. destruct (String.eqb v sample_time); [exact I|now left].
Qed.

Lemma normalise_timestamp_raises_only_what_the_parser_lets_through_witness :
  _normalise_timestamp world_with_a_late_document (Some late_time)
  = Raise OtherError
  /\ exists r, _normalise_timestamp sample_world (Some "yesterday") = Ok r.
Proof.
  split.
  - apply (proj1 (normalise_timestamp_raises_only_what_the_parser_lets_through
                    world_with_a_late_document (Some late_time))).
    exists late_time. repeat split; try reflexivity; discriminate.
  - exact (proj2 (proj2
             (normalise_timestamp_raises_only_what_the_parser_lets_through
                sample_world (Some "yesterday"))) sample_parser_contract).
Defined.

(** C10, as stated, fails: for the time ["9999-12-31T24:00:00"] the parser
    overflows, [_normalise_timestamp] raises, and the handling of a change
    to a document modified at that time raises before any upsert. *)
Lemma normalise_timestamp_raises_on_overflow :
  _normalise_timestamp world_with_a_late_document (Some late_time)
  = Raise OtherError
  /\ ~ (forall value, exists r,
          _normalise_timestamp world_with_a_late_document value = Ok r)
  /\ exists s',
       handle_change world_with_a_late_document 2 "late" empty_store
       = Some (Raise OtherError, s')
       /\ upserts (trace s') = [].
Proof.
  split; [reflexivity|]. split.
  - intros H. destruct (H (Some late_time)) as [r Hr]. discriminate Hr.
  - destruct (handle_change world_with_a_late_document 2 "late" empty_store)
      as [[r s']|] eqn:E; vm_compute in E; [|discriminate].
    injection E as <- <-. eexists. split; reflexivity.
Qed.

Lemma sample_world_healthy : healthy sample_world.
Proof.
  split; try (intros; exact I); try reflexivity.
  - exact sample_parser_contract.
  - intros c. simpl. discriminate.
Qed.

(** C2: let the provider list, under the folder the walk starts from, the
    tree [kids], which is the tree [t] with the siblings in some order, and
    let no request fail.  With a budget that covers the pages of a listing
    and the depth of the tree, the walk returns; it upserts the nodes of the
    tree, each once, parents first: as many upserts as [t] has folders and
    leaf files; and it enters content processing for the leaf files, each
    once: as many calls as [t] has leaf files. *)
Theorem walk_upserts_every_node_and_processes_every_leaf
    (W : World) (folder_id : option string)
    (path_stack : option (list string)) (t kids : list tree) (n : nat)
    (s : Store) :
  healthy W ->
  forest_perm t kids ->
  listing W n (Py.or_str folder_id (root_id W)) None
  = Some (map root_of kids) ->
  forest_listed W n kids ->
  forall fuel, (n + forest_depth kids <= fuel)%nat ->
  exists s' evs,
    steps (bootstrap_folder W fuel folder_id path_stack) s tt s' evs
    /\ map p_drive_id (upserts evs)
       = map (fun n => id (snd n)) (flat_map walk kids)
    /\ List.length (upserts evs) = (forest_folders t + forest_leaves t)%nat
    /\ map fst (process_calls evs) = flat_map leaf_files kids
    /\ List.length (process_calls evs) = forest_leaves t.
Proof.
  intros HW Hperm Hlist Hl fuel Hd.
  destruct (bootstrap_walk W HW n fuel folder_id path_stack kids s Hlist Hl Hd)
    as (s' & evs & Hrun & Hu & Hp).
  destruct (forest_perm_counts t kids Hperm) as [HF HL].
  exists s', evs. split; [exact Hrun|]. repeat split.
  - rewrite Hu. unfold expected_upserts. rewrite map_map. reflexivity.
  - rewrite Hu. unfold expected_upserts.
    now rewrite length_map, forest_walk_length, HF, HL.
  - exact Hp.
  - rewrite <- (length_map fst), Hp, forest_leaf_files_length. now rewrite HL.
Qed.

Lemma walk_upserts_every_node_and_processes_every_leaf_witness :
  exists s' evs,
    steps (bootstrap_folder sample_world 3 None None) empty_store tt s' evs
    /\ map p_drive_id (upserts evs) = ["doc1"; "sub"; "doc2"]
    /\ List.length (upserts evs) = 3%nat
    /\ map fst (process_calls evs) = [doc1; doc2]
    /\ List.length (process_calls evs) = 2%nat.
Proof.
  refine (walk_upserts_every_node_and_processes_every_leaf
            sample_world None None sample_tree sample_listing 2%nat
            empty_store sample_world_healthy _ _ _ 3%nat _).
  - apply perm_swap.
  - reflexivity.
  - simpl. repeat split.
  - simpl. lia.
Defined.







(** C4, as the code has it.  The changes of a batch are handled one after
    the other, in the order of the batch.  When the call returns, it has
    handled all of them and answers with their ids in that order.  When the
    handling of a change raises, after the changes [pre] before it have been
    handled, the call raises the same exception in the store that change
    left: the changes after it are not handled and the page token is not
    recorded. *)
Theorem webhook_handles_changes_in_order_until_one_fails
    (W : World) (fuel : nat) (rid : string) (tok : option string) :
  (forall changes s answer s',
     drive_webhook W fuel changes rid tok s = Some (Ok answer, s') ->
     answer = (change_ids changes, rid))
  /\ (forall pre c f post s processed s1 e s2,
        webhook_loop W fuel pre [] (webhook_logged s) = Some (Ok processed, s1) ->
        change_file_id c = Some f ->
        handle_change W fuel f s1 = Some (Raise e, s2) ->
        drive_webhook W fuel (pre ++ c :: post) rid tok s = Some (Raise e, s2)).
Proof.
  split.
  - intros changes s answer s' H. unfold drive_webhook in H.
    unfold bind at 1, emit at 1 in H. unfold bind at 1 in H.
    destruct (webhook_loop W fuel changes [] _) as [[[p|e] s1]|] eqn:E;
      try discriminate.
    apply webhook_loop_processed in E. simpl in E. subst p.
    unfold bind in H.
    match type of H with
    | match ?m with _ => _ end = _ => destruct m as [[[u|e] s2]|]
    end; try discriminate.
    unfold ret in H. now injection H as <- _.
  - intros pre c f post s processed s1 e s2 Hpre Hc Hf.
    unfold drive_webhook. unfold bind at 1, emit at 1. unfold bind at 1.
    fold (webhook_logged s).
    rewrite webhook_loop_app, Hpre. simpl. rewrite Hc.
    unfold bind. rewrite Hf. reflexivity.
Qed.

Lemma webhook_handles_changes_in_order_until_one_fails_witness :
  exists s2,
    handle_change world_rejecting_doc1 2 "doc1" (webhook_logged empty_store)
    = Some (Raise HTTPStatusError, s2)
    /\ drive_webhook world_rejecting_doc1 2 sample_batch "res" (Some "tok")
                     empty_store
       = Some (Raise HTTPStatusError, s2).
Proof.
  destruct (handle_change world_rejecting_doc1 2 "doc1"
              (webhook_logged empty_store)) as [[[u|e] s2]|] eqn:E;
    try (vm_compute in E; discriminate).
  assert (He : e = HTTPStatusError)
    by (vm_compute in E; now injection E as <- _).
  subst e. exists s2. split; [reflexivity|].
  exact (proj2 (webhook_handles_changes_in_order_until_one_fails
                  world_rejecting_doc1 2 "res" (Some "tok"))
               [] (mkChange (Some "doc1") None) "doc1"
               [mkChange None (Some "doc2")] empty_store []
               (webhook_logged empty_store) HTTPStatusError s2
               eq_refl eq_refl E).
Defined.

(** C4, as stated, fails: in a batch for ["doc1"] and ["doc2"] where the
    upsert of ["doc1"] is rejected, ["doc2"], which comes second, is never
    looked up. *)
Lemma webhook_failure_drops_later_changes :
  ~ handles_every_change world_rejecting_doc1 2 sample_batch empty_store.
Proof.
  intros H. unfold handles_every_change in H.
  destruct (drive_webhook world_rejecting_doc1 2 sample_batch EmptyString None
              empty_store) as [[r s']|] eqn:E; [|vm_compute in E; discriminate].
  specialize (H r s' eq_refl (mkChange None (Some "doc2")) "doc2"
                (or_intror (or_introl eq_refl)) eq_refl).
  vm_compute in E. injection E as <- <-. simpl in H.
  repeat (destruct H as [H|H]; [discriminate H|]). exact H.
Qed.

End ReconcilerProperties.

(* ================================================================== *)
(** ** More properties of the chunker *)

Section ChunkerNumbering.

Import Py.

Variables (fid : string) (max_tokens overlap : Z).

Lemma chunker_numbered_close (st : chunker) (text : string) (n : option Z) :
  chunker_numbered fid st ->
  Z.of_nat (List.length (chunks st ++ [mkChunk fid (next_index st) text n None]))
  = next_index st + 1
  /\ map chunk_index (chunks st ++ [mkChunk fid (next_index st) text n None])
     = map Z.of_nat
         (seq 0 (List.length
                   (chunks st ++ [mkChunk fid (next_index st) text n None])))
  /\ Forall (fun c => file_id c = fid /\ embedding c = None)
            (chunks st ++ [mkChunk fid (next_index st) text n None]).
Proof.
  intros (Hn & Hi & Hf). rewrite length_app. simpl.
  rewrite Nat.add_1_r, seq_S, !map_app, <- Hi. simpl.
  repeat split.
  - lia.
  - now rewrite Hn.
  - apply Forall_app. split; [exact Hf|]. now repeat constructor.
Qed.

Lemma chunk_step_numbered (st : chunker) (p : string) :
  chunker_numbered fid st ->
  chunker_numbered fid (chunk_step fid max_tokens overlap st p).
Proof.
  intros H. unfold chunk_step.
  destruct ((token_count st + word_count p >? max_tokens)
            && nonempty (current st)); [|exact H].
  destruct (chunker_numbered_close st (join blank (current st))
              (Some (token_count st)) H) as (Hn & Hi & Hf).
  destruct (overlap >? 0).
  - destruct (overlap_walk overlap (rev (current st)) [] 0) as [ops otk].
    unfold chunker_numbered. simpl. rewrite Hn. auto.
  - unfold chunker_numbered. simpl. rewrite Hn. auto.
Qed.

Lemma chunk_loop_numbered (ps : list string) : forall st,
  chunker_numbered fid st ->
  chunker_numbered fid (chunk_loop fid max_tokens overlap ps st).
Proof.
  induction ps as [|p ps IH]; intros st H; simpl; [exact H|].
  apply IH, chunk_step_numbered, H.
Qed.

Lemma chunk_step_current (st : chunker) (p : string) :
  current (chunk_step fid max_tokens overlap st p) <> [].
Proof.
  unfold chunk_step.
  destruct ((token_count st + word_count p >? max_tokens)
            && nonempty (current st)).
  - destruct (overlap >? 0).
    + destruct (overlap_walk overlap (rev (current st)) [] 0) as [ops otk].
      simpl. now destruct ops.
    + simpl. discriminate.
  - simpl. now destruct (current st).
Qed.

Lemma chunk_loop_current (ps : list string) : forall st,
  ps <> [] \/ current st <> [] ->
  current (chunk_loop fid max_tokens overlap ps st) <> [].
Proof.
  induction ps as [|p ps IH]; intros st H; simpl.
  - destruct H as [H|H]; [contradiction|exact H].
  - apply IH. right. apply chunk_step_current.
Qed.

End ChunkerNumbering.

Section Blank.

Import Py.

Local Notation "a +s+ b" := (String.append a b)
  (at level 60, right associativity).

Lemma all_space_app (a b : string) :
  all_space (a +s+ b) = all_space a && all_space b.
Proof.
  induction a as [|c a IH]; simpl; [reflexivity|].
  now rewrite IH, andb_assoc.
Qed.

(** Induction that follows [split_blank_from], two characters at a time. *)
Lemma string_pair_induction (P : string -> Prop) :
  P EmptyString ->
  (forall c, P (String c EmptyString)) ->
  (forall c c' r, P r -> P (String c' r) -> P (String c (String c' r))) ->
  forall s, P s.
Proof.
  intros H0 H1 H2 s.
  assert (H : P s /\ forall c, P (String c s)).
  { induction s as [|c' r [IHr IHc]].
    - split; [exact H0|exact H1].
    - split; [apply IHc|]. intros c. apply H2; [exact IHr|apply IHc]. }
  exact (proj1 H).
Qed.

Lemma is_space_LF : is_space LF = true.
Proof. reflexivity. Qed.

Lemma split_blank_from_all_space (s : string) : forall cur,
  forallb all_space (split_blank_from cur s) = all_space cur && all_space s.
Proof.
  induction s as [|c|c c' r IHr IHc] using string_pair_induction; intros cur.
  - simpl. now rewrite !andb_true_r.
  - simpl. rewrite all_space_app. simpl. now rewrite !andb_true_r.
  - change (split_blank_from cur (String c (String c' r)))
      with (if Ascii.eqb c LF && Ascii.eqb c' LF
            then cur :: split_blank_from EmptyString r
            else split_blank_from (cur +s+ String c EmptyString) (String c' r)).
    destruct (Ascii.eqb c LF && Ascii.eqb c' LF) eqn:E.
    + apply andb_prop in E as [Ec Ec'].
      apply Ascii.eqb_eq in Ec, Ec'. subst c c'.
      simpl. rewrite IHr. simpl. reflexivity.
    + rewrite IHc, all_space_app. simpl.
      destruct (all_space cur), (is_space c), (is_space c'); reflexivity.
Qed.

Lemma lstrip_all_space (s : string) :
  all_space s = true -> lstrip s = EmptyString.
Proof.
  induction s as [|c r IH]; simpl; [reflexivity|].
  intros H. apply andb_prop in H as [Hc Hr]. rewrite Hc. auto.
Qed.

Lemma lstrip_some (s : string) :
  all_space s = false ->
  exists c r, lstrip s = String c r /\ is_space c = false.
Proof.
  induction s as [|c r IH]; simpl; [discriminate|].
  destruct (is_space c) eqn:E; simpl; [exact IH|]. intros _. now exists c, r.
Qed.

Lemma strip_truthy (s : string) : truthy (strip s) = negb (all_space s).
Proof.
  unfold strip. destruct (all_space s) eqn:E.
  - now rewrite lstrip_all_space.
  - destruct (lstrip_some s E) as (c & r & -> & Hc). simpl.
    now rewrite Hc, andb_false_r.
Qed.

Lemma split_paragraphs_none (text : string) :
  _split_paragraphs text = [] <-> all_space text = true.
Proof.
  unfold _split_paragraphs, split_blank.
  pose proof (split_blank_from_all_space text EmptyString) as H.
  simpl in H. rewrite <- H. clear H.
  induction (split_blank_from EmptyString text) as [|x l IH]; simpl.
  - tauto.
  - rewrite strip_truthy. destruct (all_space x); simpl.
    + exact IH.
    + split; discriminate.
Qed.

End Blank.

Section ChunkerShape.

Import Py.

Lemma chunk_finish_numbered (fid : string) (max_tokens overlap : Z)
    (ps : list string) :
  let out := chunk_finish fid
               (chunk_loop fid max_tokens overlap ps (mkChunker [] [] 0 0)) in
  map chunk_index out = map Z.of_nat (seq 0 (List.length out))
  /\ Forall (fun c => file_id c = fid /\ embedding c = None) out.
Proof.
  assert (H0 : chunker_numbered fid (mkChunker [] [] 0 0)).
  { repeat split. constructor. }
  pose proof (chunk_loop_numbered fid max_tokens overlap ps _ H0) as H.
  revert H.
  generalize (chunk_loop fid max_tokens overlap ps (mkChunker [] [] 0 0)).
  intros st H. unfold chunk_finish. destruct (nonempty (current st)).
  - destruct (chunker_numbered_close fid st (join blank (current st))
                (Some (token_count st)) H) as (_ & Hi & Hf).
    split; assumption.
  - destruct H as (_ & Hi & Hf). split; assumption.
Qed.

Lemma chunk_text_numbers_aux (text fid : string) :
  map chunk_index (chunk_text text fid 800 200)
  = map Z.of_nat (seq 0 (List.length (chunk_text text fid 800 200)))
  /\ Forall (fun c => file_id c = fid /\ embedding c = None)
            (chunk_text text fid 800 200).
Proof.
  unfold chunk_text. destruct (nonempty (_split_paragraphs text)).
  - apply chunk_finish_numbered.
  - split; constructor.
Qed.

(** X1: the chunks of a text are numbered 0, 1, 2, ... in the order they are
    emitted, all belong to the file they were cut for, and none carries an
    embedding yet. *)
Theorem chunk_text_numbers_chunks_from_zero
    (text fid : string) (max_tokens overlap : Z) :
  map chunk_index (chunk_text text fid max_tokens overlap)
  = map Z.of_nat (seq 0 (List.length (chunk_text text fid max_tokens overlap)))
  /\ Forall (fun c => file_id c = fid /\ embedding c = None)
            (chunk_text text fid max_tokens overlap).
Proof.
  unfold chunk_text. destruct (nonempty (_split_paragraphs text)).
  - apply chunk_finish_numbered.
  - split; constructor.
Qed.

(** X2: a text gives no chunk exactly when it holds nothing but whitespace
    (the empty text included). *)
Theorem chunk_text_empty_iff_whitespace
    (text fid : string) (max_tokens overlap : Z) :
  chunk_text text fid max_tokens overlap = [] <-> all_space text = true.
Proof.
  rewrite <- split_paragraphs_none. unfold chunk_text.
  destruct (_split_paragraphs text) as [|p ps] eqn:E.
  - cbn [nonempty]. tauto.
  - cbn [nonempty].
    assert (Hc : current (chunk_loop fid max_tokens overlap (p :: ps)
                            (mkChunker [] [] 0 0)) <> []).
    { apply chunk_loop_current. left. discriminate. }
    revert Hc.
    generalize (chunk_loop fid max_tokens overlap (p :: ps)
                  (mkChunker [] [] 0 0)).
    intros st Hc. split; [|discriminate]. unfold chunk_finish.
    destruct (current st) as [|q cur]; [contradiction|].
    cbn [nonempty]. destruct (chunks st); discriminate.
Qed.

Lemma gtb_false (a b : Z) : a <= b -> (a >? b) = false.
Proof. intros H. rewrite Z.gtb_ltb. apply Z.ltb_ge. exact H. Qed.

Lemma gtb_true (a b : Z) : b < a -> (a >? b) = true.
Proof. intros H. rewrite Z.gtb_ltb. apply Z.ltb_lt. exact H. Qed.

Lemma gtb_false_le (a b : Z) : (a >? b) = false -> a <= b.
Proof. rewrite Z.gtb_ltb. apply Z.ltb_ge. Qed.

Lemma word_count_nonneg (s : string) : 0 <= word_count s.
Proof. unfold word_count. lia. Qed.

Lemma sum_words_nonneg (l : list string) : 0 <= sum_words l.
Proof.
  induction l as [|p l IH]; simpl; [lia|].
  pose proof (word_count_nonneg p). lia.
Qed.

Lemma chunk_loop_fits (fid : string) (max_tokens overlap : Z)
    (todo : list string) : forall done,
  sum_words done + sum_words todo <= max_tokens ->
  chunk_loop fid max_tokens overlap todo
    (mkChunker [] done (sum_words done) 0)
  = mkChunker [] (done ++ todo) (sum_words (done ++ todo)) 0.
Proof.
  induction todo as [|p todo IH]; intros done H; simpl.
  - now rewrite app_nil_r.
  - simpl in H. pose proof (sum_words_nonneg todo) as Hn.
    unfold chunk_step. simpl.
    rewrite gtb_false by lia.
    simpl.
    replace (sum_words done + word_count p) with (sum_words (done ++ [p]))
      by (rewrite sum_words_app; simpl; lia).
    rewrite IH.
    + now rewrite <- app_assoc.
    + rewrite sum_words_app. simpl. lia.
Qed.

(** X3: when the paragraphs of a text have no more than [max_tokens] words
    in all, the text is one chunk: all its paragraphs, joined by blank
    lines, with the total number of words. *)
Theorem chunk_text_that_fits_is_one_chunk
    (text fid : string) (max_tokens overlap : Z) :
  _split_paragraphs text <> [] ->
  sum_words (_split_paragraphs text) <= max_tokens ->
  chunk_text text fid max_tokens overlap
  = [mkChunk fid 0 (join blank (_split_paragraphs text))
             (Some (sum_words (_split_paragraphs text))) None].
Proof.
  intros Hne Hfit. unfold chunk_text.
  destruct (_split_paragraphs text) as [|p ps] eqn:E; [contradiction|].
  simpl nonempty. cbv iota.
  change (mkChunker [] [] 0 0) with (mkChunker [] [] (sum_words []) 0).
  rewrite chunk_loop_fits by (simpl in *; lia).
  reflexivity.
Qed.

Lemma chunk_text_that_fits_is_one_chunk_witness :
  chunk_text sample_text "doc" 1000 0
  = [mkChunk "doc" 0 sample_text (Some 10) None].
Proof.
  exact (chunk_text_that_fits_is_one_chunk sample_text "doc" 1000 0
           ltac:(discriminate) ltac:(vm_compute; discriminate)).
Defined.

End ChunkerShape.

Section ChunkerWithoutOverlap.

Import Py.

Local Notation "a +s+ b" := (String.append a b)
  (at level 60, right associativity).

Lemma join_cons (sep x : string) (l : list string) :
  l <> [] -> join sep (x :: l) = x +s+ sep +s+ join sep l.
Proof. destruct l; [contradiction|reflexivity]. Qed.

Lemma join_app (sep : string) (a b : list string) :
  a <> [] -> b <> [] ->
  join sep (a ++ b) = join sep a +s+ sep +s+ join sep b.
Proof.
  intros Ha Hb. induction a as [|x a IH]; [contradiction|].
  destruct a as [|y a].
  - simpl app. now rewrite join_cons.
  - change ((x :: y :: a) ++ b) with (x :: ((y :: a) ++ b)).
    rewrite join_cons by discriminate.
    rewrite IH by discriminate.
    rewrite (join_cons sep x (y :: a)) by discriminate.
    now rewrite !append_assoc.
Qed.

Lemma join_concat (gs : list (list string)) :
  Forall (fun g => g <> []) gs ->
  join blank (map (join blank) gs) = join blank (List.concat gs).
Proof.
  induction gs as [|g gs IH]; intros H; [reflexivity|].
  inversion H as [|? ? Hg Hgs]; subst.
  destruct gs as [|g' gs].
  - simpl. now rewrite app_nil_r.
  - assert (Hc : List.concat (g' :: gs) <> []).
    { inversion Hgs; subst. simpl. destruct g'; [contradiction|discriminate]. }
    change (List.concat (g :: g' :: gs)) with (g ++ List.concat (g' :: gs)).
    rewrite join_app by assumption.
    rewrite <- IH by assumption.
    change (map (join blank) (g :: g' :: gs))
      with (join blank g :: map (join blank) (g' :: gs)).
    now rewrite join_cons by discriminate.
Qed.

(** X4: without overlap nothing is lost and nothing is repeated: the
    contents of the chunks, put together with blank lines between them, are
    the paragraphs of the text put together in the same way. *)
Theorem chunk_text_without_overlap_rebuilds_the_text
    (text fid : string) (max_tokens overlap : Z) :
  overlap <= 0 ->
  join blank (map content (chunk_text text fid max_tokens overlap))
  = join blank (_split_paragraphs text).
Proof.
  intros Hov. unfold chunk_text.
  destruct (nonempty (_split_paragraphs text)) eqn:Hne.
  - destruct (chunk_finish_inv fid max_tokens overlap (_split_paragraphs text))
      as [_ (gs & Hm & Hg & Hp)].
    rewrite Hm, (Hp Hov) at 1. 
    rewrite join_concat; [now rewrite <- (Hp Hov)|].
    eapply Forall_impl; [|exact Hg]. now intros g [? _].
  - now destruct (_split_paragraphs text).
Qed.

Lemma chunk_text_without_overlap_rebuilds_the_text_witness :
  join blank (map content (chunk_text sample_text "doc" 3 0))
  = join blank (_split_paragraphs sample_text).
Proof.
  exact (chunk_text_without_overlap_rebuilds_the_text sample_text "doc" 3 0
           ltac:(lia)).
Defined.

Variables (fid : string) (max_tokens overlap : Z).
Hypothesis Hov : overlap <= 0.

Lemma within_or_single_more (done : list string) (p : string) (c : Chunk) :
  within_or_single max_tokens done c ->
  within_or_single max_tokens (done ++ [p]) c.
Proof.
  intros [H|H]; [now left|right]. apply in_or_app. now left.
Qed.

Lemma bounded_state_closes (done : list string) (st : chunker) (i : Z) :
  bounded_state max_tokens done st -> current st <> [] ->
  within_or_single max_tokens done
    (mkChunk fid i (join blank (current st)) (Some (token_count st)) None).
Proof.
  intros (_ & _ & [H|[H|(p & Hp & Hin)]]) Hne.
  - contradiction.
  - left. now exists (token_count st).
  - right. simpl. now rewrite Hp.
Qed.

Lemma chunk_step_bounded (done : list string) (st : chunker) (p : string) :
  bounded_state max_tokens done st ->
  bounded_state max_tokens (done ++ [p]) (chunk_step fid max_tokens overlap st p).
Proof.
  intros H. pose proof H as (Hc & Ht & Hcur). unfold chunk_step.
  assert (Hin : In p (done ++ [p])) by (apply in_or_app; right; now left).
  destruct ((token_count st + word_count p >? max_tokens)
            && nonempty (current st)) eqn:Hclose.
  - apply andb_prop in Hclose as [_ Hne].
    assert (Hcne : current st <> []) by (destruct (current st); easy).
    rewrite (gtb_false overlap 0 Hov).
    repeat split; simpl.
    + apply Forall_app. split.
      * eapply Forall_impl; [|exact Hc]. intros c.
        apply within_or_single_more.
      * constructor; [|constructor].
        apply within_or_single_more.
        exact (bounded_state_closes done st (next_index st) H Hcne).
    + lia.
    + right. right. now exists p.
  - repeat split; simpl.
    + eapply Forall_impl; [|exact Hc]. intros c. apply within_or_single_more.
    + rewrite sum_words_app, Ht. simpl. lia.
    + destruct (current st) as [|q cur] eqn:Ecur.
      * right. right. now exists p.
      * right. left. simpl in Hclose. rewrite andb_true_r in Hclose.
        apply gtb_false_le in Hclose. exact Hclose.
Qed.

Lemma chunk_loop_bounded (ps : list string) : forall done st,
  bounded_state max_tokens done st ->
  bounded_state max_tokens (done ++ ps) (chunk_loop fid max_tokens overlap ps st).
Proof.
  induction ps as [|p ps IH]; intros done st H; simpl.
  - now rewrite app_nil_r.
  - specialize (IH _ _ (chunk_step_bounded done st p H)).
    now rewrite <- app_assoc in IH.
Qed.

End ChunkerWithoutOverlap.

Section ChunkerBound.

Import Py.

(** X5: without overlap, a chunk has more than [max_tokens] words only when
    it is a single paragraph of the text: every chunk is within
    [max_tokens] words or is one paragraph, whole. *)
Theorem chunk_text_without_overlap_is_bounded
    (text fid : string) (max_tokens overlap : Z) :
  overlap <= 0 ->
  Forall (within_or_single max_tokens (_split_paragraphs text))
         (chunk_text text fid max_tokens overlap).
Proof.
  intros Hov. unfold chunk_text.
  destruct (nonempty (_split_paragraphs text)); [|constructor].
  assert (H0 : bounded_state max_tokens [] (mkChunker [] [] 0 0)).
  { repeat split; simpl; auto. }
  pose proof (chunk_loop_bounded fid max_tokens overlap Hov
                (_split_paragraphs text) [] _ H0) as H.
  simpl app in H. unfold chunk_finish.
  destruct (nonempty (current _)) eqn:Hne.
  - apply Forall_app. split; [apply H|]. constructor; [|constructor].
    apply (bounded_state_closes fid max_tokens _ _ _ H).
    destruct (current _); easy.
  - apply H.
Qed.

Lemma chunk_text_without_overlap_is_bounded_witness :
  Forall (within_or_single 3 (_split_paragraphs sample_text))
         (chunk_text sample_text "doc" 3 0).
Proof.
  exact (chunk_text_without_overlap_is_bounded sample_text "doc" 3 0
           ltac:(lia)).
Defined.

End ChunkerBound.

Section ChunkerOverlap.

Import Py.

Variables (fid : string) (max_tokens overlap : Z).
Hypothesis Hov : 0 < overlap.

Lemma overlap_walk_shortest (rest : list string) : forall acc n,
  rest <> [] -> n = sum_words acc -> n < overlap ->
  exists pre,
    rev rest ++ acc = pre ++ fst (overlap_walk overlap rest acc n)
    /\ snd (overlap_walk overlap rest acc n)
       = sum_words (fst (overlap_walk overlap rest acc n))
    /\ (overlap <= snd (overlap_walk overlap rest acc n) \/ pre = [])
    /\ (forall q r, fst (overlap_walk overlap rest acc n) = q :: r ->
        sum_words r < overlap).
Proof.
  induction rest as [|prev rest IH]; intros acc n Hne Hn Hlt;
    [contradiction|].
  simpl. destruct (n + word_count prev >=? overlap) eqn:E.
  - exists (rev rest). simpl. rewrite <- app_assoc. simpl.
    repeat split.
    + subst n. lia.
    + left. apply Z.geb_le in E. lia.
    + intros q r [= _ <-]. subst n. exact Hlt.
  - destruct rest as [|prev' rest'].
    + exists []. simpl. repeat split.
      * subst n. lia.
      * now right.
      * intros q r [= _ <-]. subst n. exact Hlt.
    + assert (Hlt' : n + word_count prev < overlap).
      { rewrite Z.geb_leb in E. apply Z.leb_gt in E. exact E. }
      destruct (IH (prev :: acc) (n + word_count prev)
                  ltac:(discriminate) ltac:(simpl; lia) Hlt')
        as (pre & Hs & Hsum & Hreach & Hmin).
      exists pre. repeat split; try assumption.
      rewrite <- Hs. simpl. now rewrite <- !app_assoc.
Qed.

(** X6: the paragraphs carried over from a closed buffer are its shortest
    ending run of whole paragraphs that has at least [overlap] words: a
    non-empty ending run, with its word count, that reaches [overlap] words
    unless it is the whole buffer, and that falls short of [overlap] when
    its first paragraph is left out. *)
Theorem overlap_seed_is_the_shortest_ending_run (current : list string) :
  current <> [] ->
  exists pre,
    current = pre ++ fst (overlap_walk overlap (rev current) [] 0)
    /\ fst (overlap_walk overlap (rev current) [] 0) <> []
    /\ snd (overlap_walk overlap (rev current) [] 0)
       = sum_words (fst (overlap_walk overlap (rev current) [] 0))
    /\ (overlap <= snd (overlap_walk overlap (rev current) [] 0) \/ pre = [])
    /\ (forall q r, fst (overlap_walk overlap (rev current) [] 0) = q :: r ->
        sum_words r < overlap).
Proof.
  intros Hne.
  assert (Hr : rev current <> []).
  { intros E. apply Hne. rewrite <- (rev_involutive current), E. reflexivity. }
  destruct (overlap_walk_shortest (rev current) [] 0 Hr eq_refl Hov)
    as (pre & Hs & Hsum & Hreach & Hmin).
  rewrite rev_involutive, app_nil_r in Hs.
  exists pre. repeat split; try assumption.
  intros E. rewrite E in Hs. rewrite app_nil_r in Hs.
  destruct Hreach as [Hle|Hpre].
  - rewrite Hsum, E in Hle. simpl in Hle. lia.
  - rewrite Hpre in Hs. apply Hne. exact Hs.
Qed.

Lemma chained_snoc (l : list (list string)) (g g' : list string) :
  chained (l ++ [g]) -> overlapping g g' -> chained ((l ++ [g]) ++ [g']).
Proof.
  intros H Ho. induction l as [|x l IH].
  - simpl. auto.
  - destruct l as [|y l].
    + simpl in H |- *. destruct H as [Hx _]. auto.
    + destruct H as [Hx H]. split; [exact Hx|]. now apply IH.
Qed.

Lemma chained_grow (l : list (list string)) (g : list string) (p : string) :
  chained (l ++ [g]) -> chained (l ++ [g ++ [p]]).
Proof.
  intros H. induction l as [|x l IH].
  - simpl. auto.
  - destruct l as [|y l].
    + simpl in H |- *. destruct H as [(pre & seed & post & Hs & Hp & Hg & Hg') _].
      split; [|auto]. exists pre, seed, (post ++ [p]).
      repeat split; auto.
      * now destruct post.
      * now rewrite Hg', <- app_assoc.
    + destruct H as [Hx H]. split; [exact Hx|]. now apply IH.
Qed.

Lemma chunk_step_chained (gs : list (list string)) (st : chunker)
    (p : string) :
  map content (chunks st) = map (join blank) gs ->
  chained (gs ++ [current st]) ->
  exists gs',
    map content (chunks (chunk_step fid max_tokens overlap st p))
    = map (join blank) gs'
    /\ chained (gs' ++ [current (chunk_step fid max_tokens overlap st p)]).
Proof.
  intros Hm Hc. unfold chunk_step.
  destruct ((token_count st + word_count p >? max_tokens)
            && nonempty (current st)) eqn:Hclose.
  - apply andb_prop in Hclose as [_ Hne].
    assert (Hcne : current st <> []) by (destruct (current st); easy).
    rewrite (gtb_true overlap 0 Hov).
    destruct (overlap_seed_is_the_shortest_ending_run (current st) Hcne)
      as (pre & Hs & Hseed & _).
    destruct (overlap_walk overlap (rev (current st)) [] 0) as [seed n].
    simpl in Hs, Hseed |- *.
    exists (gs ++ [current st]). split.
    + now rewrite !map_app, Hm.
    + apply chained_snoc; [exact Hc|].
      exists pre, seed, [p]. repeat split; auto. discriminate.
  - exists gs. simpl. split; [exact Hm|]. now apply chained_grow.
Qed.

Lemma chunk_loop_chained (ps : list string) : forall gs st,
  map content (chunks st) = map (join blank) gs ->
  chained (gs ++ [current st]) ->
  exists gs',
    map content (chunks (chunk_loop fid max_tokens overlap ps st))
    = map (join blank) gs'
    /\ chained (gs' ++ [current (chunk_loop fid max_tokens overlap ps st)]).
Proof.
  induction ps as [|p ps IH]; intros gs st Hm Hc; simpl.
  - now exists gs.
  - destruct (chunk_step_chained gs st p Hm Hc) as (gs1 & Hm1 & Hc1).
    exact (IH gs1 _ Hm1 Hc1).
Qed.

End ChunkerOverlap.

Section ChunkerChain.

Import Py.

(** X7: with a positive overlap, every chunk after the first starts with
    paragraphs that end the chunk before it, at least one, and goes on with
    at least one more paragraph. *)
Theorem chunk_text_with_overlap_chains_the_chunks
    (text fid : string) (max_tokens overlap : Z) :
  0 < overlap ->
  exists gs,
    map content (chunk_text text fid max_tokens overlap)
    = map (join blank) gs
    /\ chained gs.
Proof.
  intros Hov. unfold chunk_text.
  destruct (nonempty (_split_paragraphs text)).
  - destruct (chunk_loop_chained fid max_tokens overlap Hov
                (_split_paragraphs text) [] (mkChunker [] [] 0 0)
                eq_refl (conj I I))
      as (gs & Hm & Hc).
    unfold chunk_finish. destruct (nonempty (current _)) eqn:Hne.
    + exists (gs ++ [current (chunk_loop fid max_tokens overlap
                        (_split_paragraphs text) (mkChunker [] [] 0 0))]).
      split; [|exact Hc]. now rewrite !map_app, Hm.
    + exists gs. split; [exact Hm|].
      clear Hm. induction gs as [|g gs IH]; [exact I|].
      destruct gs as [|g' gs].
      * simpl. auto.
      * destruct Hc as [Hg Hc]. split; [exact Hg|]. now apply IH.
  - now exists [].
Qed.

Lemma chunk_text_with_overlap_chains_the_chunks_witness :
  exists gs,
    map content (chunk_text sample_text "doc" 3 2) = map (join blank) gs
    /\ chained gs.
Proof.
  exact (chunk_text_with_overlap_chains_the_chunks sample_text "doc" 3 2
           ltac:(lia)).
Defined.

Lemma overlap_seed_is_the_shortest_ending_run_witness :
  exists pre,
    ["a b"; "c d"; "e"] = pre ++ fst (overlap_walk 2 (rev ["a b"; "c d"; "e"]) [] 0)
    /\ fst (overlap_walk 2 (rev ["a b"; "c d"; "e"]) [] 0) = ["c d"; "e"].
Proof.
  destruct (overlap_seed_is_the_shortest_ending_run 2 ltac:(lia)
              ["a b"; "c d"; "e"] ltac:(discriminate))
    as (pre & Hs & _).
  exists pre. split; [exact Hs|reflexivity].
Defined.

End ChunkerChain.

(* ================================================================== *)
(** ** The chunk table *)

Section ChunkTable.

Variable W : World.

Lemma filter_none {A} (f : A -> bool) (l : list A) :
  filter f (filter (fun x => negb (f x)) l) = [].
Proof.
  induction l as [|x l IH]; simpl; [reflexivity|].
  destruct (f x) eqn:E; simpl; [exact IH|]. now rewrite E.
Qed.

Lemma filter_all {A} (f : A -> bool) (l : list A) :
  Forall (fun x => f x = true) l -> filter f l = l.
Proof.
  induction 1 as [|x l Hx _ IH]; simpl; [reflexivity|].
  now rewrite Hx, IH.
Qed.

Lemma filter_twice {A} (f : A -> bool) (l : list A) :
  filter f (filter f l) = filter f l.
Proof.
  induction l as [|x l IH]; simpl; [reflexivity|].
  destruct (f x) eqn:E; simpl; [now rewrite E, IH|exact IH].
Qed.

Lemma belongs_to_rows (fid : string) (rows : list Chunk) :
  Forall (fun c => file_id c = fid) rows ->
  filter (belongs_to fid) rows = rows /\ other_rows fid rows = [].
Proof.
  intros H. unfold other_rows.
  induction H as [|c rows Hc _ [IH1 IH2]]; simpl; [auto|].
  assert (Hb : belongs_to fid c = true).
  { unfold belongs_to. rewrite Hc. apply String.eqb_refl. }
  rewrite Hb. simpl. now rewrite IH1, IH2.
Qed.

(** What a run of [update_chunks] whose requests succeed leaves. *)
Lemma update_chunks_run (fid : string) (rows : list Chunk) s :
  rest_delete_chunks W fid = Ok tt ->
  rows = [] \/ rest_insert_chunks W rows = Ok tt ->
  exists s',
    update_chunks W fid rows s = Some (Ok tt, s')
    /\ db_chunks s' = other_rows fid (db_chunks s) ++ rows
    /\ db_page_token s' = db_page_token s.
Proof.
  intros Hd Hi. unfold update_chunks, bind, emit, lift, ret, set_chunks.
  rewrite Hd. simpl. destruct rows as [|c rows]; simpl.
  - eexists. split; [reflexivity|]. simpl. now rewrite app_nil_r.
  - destruct Hi as [Hi|Hi]; [discriminate|]. rewrite Hi. simpl.
    eexists. split; [reflexivity|]. split; reflexivity.
Qed.

(** X8: when its requests succeed, [update_chunks] replaces the rows of one
    file and touches no other: afterwards the rows of the file are the rows
    given, in their order, and the rows of the other files are what they
    were. *)
Theorem update_chunks_replaces_the_rows_of_one_file
    (fid : string) (rows : list Chunk) (s : Store) :
  rest_delete_chunks W fid = Ok tt ->
  rows = [] \/ rest_insert_chunks W rows = Ok tt ->
  Forall (fun c => file_id c = fid) rows ->
  exists s',
    update_chunks W fid rows s = Some (Ok tt, s')
    /\ filter (belongs_to fid) (db_chunks s') = rows
    /\ other_rows fid (db_chunks s') = other_rows fid (db_chunks s).
Proof.
  intros Hd Hi Hr.
  destruct (update_chunks_run fid rows s Hd Hi) as (s' & Hrun & Hdb & _).
  destruct (belongs_to_rows fid rows Hr) as [Hin Hout].
  exists s'. split; [exact Hrun|]. rewrite Hdb. unfold other_rows in *.
  rewrite !filter_app, Hin, Hout, filter_none, app_nil_r.
  split; [reflexivity|]. apply filter_twice.
Qed.

(** X9: [update_chunks] is not atomic.  When the delete request fails, the
    call raises with the table as it was and no insert request sent.  When
    the delete request succeeds and the insert request fails, the call
    raises after the old rows of the file are gone and none of the new rows
    is stored; the rows of the other files are what they were. *)
Theorem update_chunks_failures (fid : string) (rows : list Chunk)
    (s : Store) (e : exn) :
  (rest_delete_chunks W fid = Raise e ->
   exists s',
     update_chunks W fid rows s = Some (Raise e, s')
     /\ db_chunks s' = db_chunks s
     /\ trace s' = trace s ++ [EvDeleteChunks fid])
  /\ (rest_delete_chunks W fid = Ok tt ->
      rows <> [] ->
      rest_insert_chunks W rows = Raise e ->
      exists s',
        update_chunks W fid rows s = Some (Raise e, s')
        /\ filter (belongs_to fid) (db_chunks s') = []
        /\ other_rows fid (db_chunks s') = other_rows fid (db_chunks s)
        /\ trace s' = trace s ++ [EvDeleteChunks fid; EvInsertChunks rows]).
Proof.
  split.
  - intros Hd. unfold update_chunks, bind, emit, lift. rewrite Hd.
    eexists. split; [reflexivity|]. split; reflexivity.
  - intros Hd Hne Hi.
    unfold update_chunks, bind, emit, lift, ret, set_chunks.
    rewrite Hd. simpl. destruct rows as [|c rows]; [contradiction|].
    simpl. rewrite Hi.
    eexists. split; [reflexivity|]. simpl. unfold other_rows.
    rewrite filter_none, filter_twice, <- app_assoc. auto.
Qed.

(** X10: replacing the rows of a file twice with the same rows leaves the
    table that replacing them once leaves. *)
Theorem update_chunks_twice_is_once
    (fid : string) (rows : list Chunk) (s : Store) :
  rest_delete_chunks W fid = Ok tt ->
  rows = [] \/ rest_insert_chunks W rows = Ok tt ->
  Forall (fun c => file_id c = fid) rows ->
  exists s1 s2,
    update_chunks W fid rows s = Some (Ok tt, s1)
    /\ update_chunks W fid rows s1 = Some (Ok tt, s2)
    /\ db_chunks s2 = db_chunks s1.
Proof.
  intros Hd Hi Hr.
  destruct (update_chunks_run fid rows s Hd Hi) as (s1 & Hrun1 & Hdb1 & _).
  destruct (update_chunks_run fid rows s1 Hd Hi) as (s2 & Hrun2 & Hdb2 & _).
  destruct (belongs_to_rows fid rows Hr) as [_ Hout].
  exists s1, s2. split; [exact Hrun1|]. split; [exact Hrun2|].
  rewrite Hdb2, Hdb1. unfold other_rows in *.
  now rewrite filter_app, Hout, filter_twice, app_nil_r.
Qed.

End ChunkTable.

Section ChunkTableWitnesses.

Lemma update_chunks_replaces_the_rows_of_one_file_witness :
  exists s',
    update_chunks sample_world "rec-doc1"
      [mkChunk "rec-doc1" 0 "new" (Some 1) None] sample_store
    = Some (Ok tt, s')
    /\ filter (belongs_to "rec-doc1") (db_chunks s')
       = [mkChunk "rec-doc1" 0 "new" (Some 1) None]
    /\ other_rows "rec-doc1" (db_chunks s')
       = other_rows "rec-doc1" (db_chunks sample_store).
Proof.
  apply (update_chunks_replaces_the_rows_of_one_file sample_world).
  - reflexivity.
  - right. reflexivity.
  - repeat constructor.
Defined.

Lemma update_chunks_twice_is_once_witness :
  exists s1 s2,
    update_chunks sample_world "rec-doc1"
      [mkChunk "rec-doc1" 0 "new" (Some 1) None] sample_store
    = Some (Ok tt, s1)
    /\ update_chunks sample_world "rec-doc1"
         [mkChunk "rec-doc1" 0 "new" (Some 1) None] s1
       = Some (Ok tt, s2)
    /\ db_chunks s2 = db_chunks s1.
Proof.
  apply (update_chunks_twice_is_once sample_world).
  - reflexivity.
  - right. reflexivity.
  - repeat constructor.
Defined.

End ChunkTableWitnesses.

Section ChunkTableFailureWitness.

Lemma update_chunks_failures_witness :
  exists s',
    update_chunks world_rejecting_inserts "rec-doc1"
      [mkChunk "rec-doc1" 0 "new" (Some 1) None] sample_store
    = Some (Raise HTTPStatusError, s')
    /\ filter (belongs_to "rec-doc1") (db_chunks s') = []
    /\ other_rows "rec-doc1" (db_chunks s')
       = other_rows "rec-doc1" (db_chunks sample_store)
    /\ trace s'
       = trace sample_store
         ++ [EvDeleteChunks "rec-doc1";
             EvInsertChunks [mkChunk "rec-doc1" 0 "new" (Some 1) None]].
Proof.
  apply (proj2 (update_chunks_failures world_rejecting_inserts "rec-doc1"
                  [mkChunk "rec-doc1" 0 "new" (Some 1) None] sample_store
                  HTTPStatusError)).
  - reflexivity.
  - discriminate.
  - reflexivity.
Defined.

End ChunkTableFailureWitness.

(* ================================================================== *)
(** ** The annotator, request by request *)

Section Annotator.

Variable W : World.

Lemma embed_chunk_cases (c : Chunk) s :
  let s1 := mkStore (db_chunks s) (db_page_token s)
                    (trace s ++ [EvEmbed (content c)]) in
  (exists c', annotated W c c' /\ embed_chunk W c s = Some (Ok c', s1))
  \/ (exists e, embedding_fails W c e
                /\ embed_chunk W c s = Some (Raise e, s1)).
Proof.
  unfold embed_chunk, annotated, embedding_fails, bind, emit, lift, ret, raise.
  destruct (openai_embeddings W (content c)) as [r|e] eqn:E; simpl.
  - destruct (reply_data r) as [[|x l]|] eqn:D; simpl.
    + right. exists IndexError. split; [|reflexivity].
      right. split; [reflexivity|]. now exists r.
    + left. eexists. split; [|reflexivity].
      exists r. rewrite D. repeat split. discriminate.
    + left. eexists. split; [|reflexivity].
      exists r. rewrite D. repeat split. discriminate.
  - right. exists e. split; [now left|reflexivity].
Qed.

Lemma annotated_keeps (c c' : Chunk) :
  annotated W c c' ->
  file_id c' = file_id c /\ chunk_index c' = chunk_index c
  /\ content c' = content c.
Proof. intros (r & _ & _ & ->). auto. Qed.

Lemma embed_loop_returns (cs : list Chunk) : forall s cs' s',
  embed_loop W cs s = Some (Ok cs', s') ->
  Forall2 (annotated W) cs cs'
  /\ trace s' = trace s ++ embed_requests cs
  /\ db_chunks s' = db_chunks s.
Proof.
  induction cs as [|c cs IH]; intros s cs' s' H; simpl in H.
  - injection H as <- <-. repeat split; [constructor|].
    simpl. now rewrite app_nil_r.
  - unfold bind at 1 in H.
    destruct (embed_chunk_cases c s) as [(c1 & Ha & Hr)|(e & _ & Hr)];
      rewrite Hr in H; [|discriminate].
    unfold bind at 1 in H.
    destruct (embed_loop W cs _) as [[[cs1|e] s2]|] eqn:E; try discriminate.
    injection H as <- <-.
    destruct (IH _ _ _ E) as (Hf & Ht & Hdb).
    repeat split.
    + now constructor.
    + rewrite Ht. simpl. now rewrite <- app_assoc.
    + rewrite Hdb. reflexivity.
Qed.

Lemma embed_loop_raises (cs : list Chunk) : forall s e s',
  embed_loop W cs s = Some (Raise e, s') ->
  exists pre pre' c post,
    cs = pre ++ c :: post
    /\ Forall2 (annotated W) pre pre'
    /\ embedding_fails W c e
    /\ trace s' = trace s ++ embed_requests (pre ++ [c])
    /\ db_chunks s' = db_chunks s.
Proof.
  induction cs as [|c cs IH]; intros s e s' H; simpl in H; [discriminate|].
  unfold bind at 1 in H.
  destruct (embed_chunk_cases c s) as [(c1 & Ha & Hr)|(e1 & Hf & Hr)];
    rewrite Hr in H.
  - unfold bind at 1 in H.
    destruct (embed_loop W cs _) as [[[cs1|e2] s2]|] eqn:E; try discriminate.
    injection H as <- <-.
    destruct (IH _ _ _ E) as (pre & pre' & c0 & post & -> & Hp & Hf & Ht & Hdb).
    exists (c :: pre), (c1 :: pre'), c0, post. repeat split; auto.
    + rewrite Ht. simpl. now rewrite <- app_assoc.
  - injection H as <- <-.
    exists [], [], c, cs. repeat split; auto.
Qed.

Lemma embed_chunks_keeps (cs cs' : list Chunk) (s s' : Store) :
  embed_chunks W cs s = Some (Ok cs', s') ->
  map file_id cs' = map file_id cs
  /\ map chunk_index cs' = map chunk_index cs
  /\ map content cs' = map content cs
  /\ db_chunks s' = db_chunks s.
Proof.
  unfold embed_chunks. destruct (has_embeddings (cfg W)); simpl; intros H.
  - destruct (embed_loop_returns cs s cs' s' H) as (Hf & Ht & Hdb).
    repeat split; try exact Hdb;
      clear H Ht Hdb; induction Hf as [|c c' l l' Ha _ IH]; simpl;
      try reflexivity;
      destruct (annotated_keeps c c' Ha) as (H1 & H2 & H3);
      now rewrite IH, ?H1, ?H2, ?H3.
  - unfold bind, emit, ret in H. injection H as <- <-. auto.
Qed.

(** X11: when [embed_chunks] returns, it returns as many chunks, in the same
    order, with the file ids, indices and contents they had, and the chunk
    table as it was.  With an API key, it has sent one request per chunk,
    in order, and each chunk carries the embedding of its answer and the
    token count of its answer (its own count when the answer has none).
    Without a key, or with an empty one, the chunks come back as they were
    and a warning is all that happened. *)
Theorem embed_chunks_annotates_in_place
    (cs cs' : list Chunk) (s s' : Store) :
  embed_chunks W cs s = Some (Ok cs', s') ->
  (map file_id cs' = map file_id cs
   /\ map chunk_index cs' = map chunk_index cs
   /\ map content cs' = map content cs
   /\ db_chunks s' = db_chunks s)
  /\ (has_embeddings (cfg W) = true ->
      Forall2 (annotated W) cs cs'
      /\ trace s' = trace s ++ embed_requests cs)
  /\ (has_embeddings (cfg W) = false ->
      cs' = cs /\ trace s' = trace s ++ [EvWarning LogNoApiKey]).
Proof.
  intros H. split; [exact (embed_chunks_keeps cs cs' s s' H)|].
  revert H. unfold embed_chunks.
  destruct (has_embeddings (cfg W)); simpl; intros H.
  - destruct (embed_loop_returns cs s cs' s' H) as (Hf & Ht & _).
    split; [auto|discriminate].
  - unfold bind, emit, ret in H. injection H as <- <-.
    split; [discriminate|auto].
Qed.

(** X12: when [embed_chunks] raises, with an API key, it has sent the
    requests for the chunks up to the first one whose request fails, that
    one included, in order, and none for the chunks after it; the chunk
    table is as it was. *)
Theorem embed_chunks_stops_at_the_first_failure
    (cs : list Chunk) (s s' : Store) (e : exn) :
  embed_chunks W cs s = Some (Raise e, s') ->
  exists pre pre' c post,
    cs = pre ++ c :: post
    /\ Forall2 (annotated W) pre pre'
    /\ embedding_fails W c e
    /\ trace s' = trace s ++ embed_requests (pre ++ [c])
    /\ db_chunks s' = db_chunks s.
Proof.
  unfold embed_chunks. destruct (has_embeddings (cfg W)); simpl.
  - apply embed_loop_raises.
  - unfold bind, emit, ret. discriminate.
Qed.

End Annotator.

Section AnnotatorWitnesses.

Lemma embed_chunks_annotates_in_place_witness :
  exists cs' s',
    embed_chunks sample_world (chunk_text sample_text "doc" 3 0) empty_store
    = Some (Ok cs', s')
    /\ map content cs' = map content (chunk_text sample_text "doc" 3 0)
    /\ trace s' = embed_requests (chunk_text sample_text "doc" 3 0).
Proof.
  destruct (embed_chunks sample_world (chunk_text sample_text "doc" 3 0)
              empty_store) as [[[cs'|e] s']|] eqn:E;
    try (vm_compute in E; discriminate).
  destruct (embed_chunks_annotates_in_place sample_world _ _ _ _ E)
    as ((_ & _ & Hc & _) & Hk & _).
  destruct (Hk eq_refl) as [_ Ht].
  exists cs', s'. repeat split; assumption.
Defined.

Lemma embed_chunks_stops_at_the_first_failure_witness :
  exists e s' pre c post,
    embed_chunks world_without_embeddings
      (chunk_text sample_text "doc" 3 0) empty_store
    = Some (Raise e, s')
    /\ chunk_text sample_text "doc" 3 0 = pre ++ c :: post
    /\ trace s' = embed_requests (pre ++ [c]).
Proof.
  destruct (embed_chunks world_without_embeddings
              (chunk_text sample_text "doc" 3 0) empty_store)
    as [[[cs'|e] s']|] eqn:E; try (vm_compute in E; discriminate).
  destruct (embed_chunks_stops_at_the_first_failure
              world_without_embeddings _ _ _ _ E)
    as (pre & pre' & c & post & Hcs & _ & _ & Ht & _).
  exists e, s', pre, c, post. repeat split; assumption.
Defined.

End AnnotatorWitnesses.

(* ================================================================== *)
(** ** Content processing, end to end *)

Section ContentProcessing.

Variable W : World.

Ltac run_with H := erewrite bind_ok; [|exact H]; cbv beta zeta.
Ltac run_emit := erewrite bind_ok; [|reflexivity]; cbv beta zeta.

Lemma as_payload_same (c : Chunk) : as_payload c = c.
Proof. now destruct c. Qed.

Lemma map_as_payload (cs : list Chunk) : map as_payload cs = cs.
Proof.
  induction cs as [|c cs IH]; simpl; [reflexivity|].
  now rewrite as_payload_same, IH.
Qed.

Lemma export_file_run (i m text : string) s :
  files_export W i m = Ok text ->
  export_file W i m s
  = Some (Ok text, mkStore (db_chunks s) (db_page_token s)
                           (trace s ++ [EvExport i m])).
Proof.
  intros H. unfold export_file, bind, emit, lift. now rewrite H.
Qed.

Lemma belongs_to_all (fid : string) (cs : list Chunk) :
  Forall (fun c => file_id c = fid /\ embedding c = None) cs ->
  Forall (fun c => file_id c = fid) cs.
Proof. apply Forall_impl. now intros c [? _]. Qed.

Lemma Forall_file_id (fid : string) (cs cs' : list Chunk) :
  map file_id cs' = map file_id cs ->
  Forall (fun c => file_id c = fid) cs ->
  Forall (fun c => file_id c = fid) cs'.
Proof.
  revert cs. induction cs' as [|c' cs' IH]; intros cs Hm H; [constructor|].
  destruct cs as [|c cs]; [discriminate|]. simpl in Hm.
  injection Hm as Hc Hm. inversion H; subst.
  constructor; [congruence|]. now apply (IH cs).
Qed.

(** X13: in a world where no request fails, content processing of a file
    of a supported type leaves, as the stored rows of the record, the
    chunks of the exported text as the annotator returned them: with the
    contents of [chunk_text], numbered 0, 1, 2, ... without a gap; the
    rows of the other records are what they were. *)
Theorem process_file_content_stores_numbered_chunks
    (f : DriveFile) (rid mt text : string) (s : Store) :
  healthy W ->
  SUPPORTED_EXPORTS (mime_type f) = Some mt ->
  files_export W (id f) mt = Ok text ->
  exists cs s',
    _process_file_content W f rid s = Some (Ok tt, s')
    /\ filter (belongs_to rid) (db_chunks s') = cs
    /\ other_rows rid (db_chunks s') = other_rows rid (db_chunks s)
    /\ map chunk_index cs = map Z.of_nat (seq 0 (List.length cs))
    /\ map content cs = map content (chunk_text text rid 800 200).
Proof.
  intros HW Hmt Hexp.
  set (s0 := mkStore (db_chunks s) (db_page_token s)
                     (trace s ++ [EvProcessContent f rid])).
  set (s1 := mkStore (db_chunks s0) (db_page_token s0)
                     (trace s0 ++ [EvExport (id f) mt])).
  destruct (embed_chunks_ok W HW (chunk_text text rid 800 200) s1)
    as (cs & s2 & evs & [Hrun _] & _).
  destruct (embed_chunks_keeps W _ _ _ _ Hrun) as (Hfid & Hidx & Hcont & Hdb2).
  destruct (update_chunks_run W rid cs s2 (healthy_delete W HW rid)
              (or_intror (healthy_insert W HW cs)))
    as (s3 & Hrun3 & Hdb3 & _).
  destruct (chunk_text_numbers_aux text rid) as [Hnum Hall].
  assert (Hbel : Forall (fun c => file_id c = rid) cs).
  { apply (Forall_file_id rid _ _ Hfid), belongs_to_all, Hall. }
  destruct (belongs_to_rows rid cs Hbel) as [Hin Hout].
  exists cs, (mkStore (db_chunks s3) (db_page_token s3)
                      (trace s3 ++ [EvInfo (LogUpdated (List.length cs) (name f))])).
  split; [|split; [|split; [|split]]].
  - unfold _process_file_content. rewrite Hmt.
    run_emit. fold s0.
    run_with (export_file_run (id f) mt text s0 Hexp). fold s1.
    run_with Hrun. rewrite map_as_payload.
    run_with Hrun3. reflexivity.
  - simpl. rewrite Hdb3, filter_app, Hin. unfold other_rows.
    now rewrite filter_none.
  - simpl. rewrite Hdb3, Hdb2. unfold other_rows in *.
    now rewrite filter_app, Hout, filter_twice, app_nil_r.
  - rewrite Hidx, Hnum.
    now rewrite <- (length_map chunk_index cs), Hidx, length_map.
  - exact Hcont.
Qed.

(** X14: a change notification for a file that is not a folder and whose
    type has no export upserts its metadata and then only logs that the
    type is skipped: no export, no embeddings request, no request on the
    chunk table, which stays as it was. *)
Theorem handle_change_skips_unsupported_types
    (fuel : nat) (file_id : string) (r : Resource) (s : Store) :
  healthy W ->
  files_get W file_id = Ok (Some r) ->
  is_folder (drive_file_of r) = false ->
  SUPPORTED_EXPORTS (mime_type (drive_file_of r)) = None ->
  exists rid s',
    handle_change W fuel file_id s = Some (Ok tt, s')
    /\ db_chunks s' = db_chunks s
    /\ trace s'
       = trace s
         ++ [EvGetFile file_id;
             EvUpsert (metadata_payload (drive_file_of r)
                         (_derive_path (change_chain (drive_file_of r)))
                         (modified_at_of W (drive_file_of r)));
             EvProcessContent (drive_file_of r) rid;
             EvInfo (LogSkipping (mime_type (drive_file_of r)))].
Proof.
  intros HW Hget Hf Hmt. set (f := drive_file_of r) in *.
  set (s0 := mkStore (db_chunks s) (db_page_token s)
                     (trace s ++ [EvGetFile file_id])).
  assert (Hpath : match parents f with
                  | p :: _ => _derive_path [p; id f]
                  | [] => id f
                  end = _derive_path (change_chain f)).
  { unfold change_chain. now destruct (parents f). }
  set (p := metadata_payload f (_derive_path (change_chain f))
                             (modified_at_of W f)).
  destruct (upsert_ok W HW p s0) as (rid & s1 & [Hup Htr]).
  assert (Hdb1 : db_chunks s1 = db_chunks s).
  { revert Hup. unfold upsert_file_metadata, bind, emit, lift, ret, raise.
    destruct (rpc_upsert_file_metadata W p) as [[[|x l]|x|]|e];
      intros H; try discriminate; now injection H as _ <-. }
  exists rid. eexists. split; [|split].
  - unfold handle_change.
    erewrite bind_ok;
      [|unfold get_file, bind, emit, lift; rewrite Hget; reflexivity].
    cbv beta iota. fold f. fold s0.
    unfold is_folder in Hf. rewrite Hf, Hpath.
    erewrite bind_ok;
      [|rewrite (modified_at_ok W HW f); reflexivity].
    cbv beta. fold p.
    run_with Hup.
    unfold _process_file_content. rewrite Hmt.
    run_emit. reflexivity.
  - simpl. exact Hdb1.
  - simpl. rewrite Htr. simpl. now rewrite <- !app_assoc.
Qed.

(** X15: when the text exported for a file holds nothing but whitespace,
    content processing sends no embeddings request and one request on the
    chunk table, the delete: afterwards the record has no stored row. *)
Theorem process_file_content_of_a_blank_document
    (f : DriveFile) (rid mt text : string) (s : Store) :
  SUPPORTED_EXPORTS (mime_type f) = Some mt ->
  files_export W (id f) mt = Ok text ->
  all_space text = true ->
  rest_delete_chunks W rid = Ok tt ->
  exists s',
    _process_file_content W f rid s = Some (Ok tt, s')
    /\ filter (belongs_to rid) (db_chunks s') = []
    /\ other_rows rid (db_chunks s') = other_rows rid (db_chunks s)
    /\ trace s'
       = trace s
         ++ [EvProcessContent f rid; EvExport (id f) mt]
         ++ (if has_embeddings (cfg W) then [] else [EvWarning LogNoApiKey])
         ++ [EvDeleteChunks rid; EvInfo (LogUpdated 0 (name f))].
Proof.
  intros Hmt Hexp Hblank Hdel.
  assert (Hnone : chunk_text text rid 800 200 = []).
  { unfold chunk_text.
    now rewrite (proj2 (split_paragraphs_none text) Hblank). }
  assert (Hup : forall s2,
            update_chunks W rid [] s2
            = Some (Ok tt, mkStore (other_rows rid (db_chunks s2))
                                   (db_page_token s2)
                                   (trace s2 ++ [EvDeleteChunks rid]))).
  { intros s2. unfold update_chunks, bind, emit, lift, set_chunks, ret.
    rewrite Hdel. reflexivity. }
  unfold _process_file_content. rewrite Hmt. unfold embed_chunks.
  destruct (has_embeddings (cfg W)); cbn [negb];
    (eexists; split;
     [ run_emit;
       (erewrite bind_ok; [|apply export_file_run; exact Hexp]);
       cbv beta zeta; rewrite Hnone;
       (erewrite bind_ok; [|reflexivity]); cbv beta zeta;
       (erewrite bind_ok; [|apply Hup]); reflexivity
     | simpl; unfold other_rows;
       rewrite filter_none, filter_twice, <- !app_assoc; auto ]).
Qed.

End ContentProcessing.

Section ContentProcessingWitnesses.

Lemma world_with_picture_healthy : healthy world_with_picture.
Proof.
  split; try (intros; exact I); try reflexivity.
  - exact sample_parser_contract.
  - intros c. simpl. discriminate.
Qed.

Lemma process_file_content_stores_numbered_chunks_witness :
  exists cs s',
    _process_file_content sample_world doc1 "rec-doc1" sample_store
    = Some (Ok tt, s')
    /\ filter (belongs_to "rec-doc1") (db_chunks s') = cs
    /\ other_rows "rec-doc1" (db_chunks s')
       = other_rows "rec-doc1" (db_chunks sample_store)
    /\ map chunk_index cs = map Z.of_nat (seq 0 (List.length cs))
    /\ map content cs = map content (chunk_text sample_text "rec-doc1" 800 200).
Proof.
  exact (process_file_content_stores_numbered_chunks sample_world doc1
           "rec-doc1" "text/plain" sample_text sample_store
           sample_world_healthy eq_refl eq_refl).
Defined.

Lemma handle_change_skips_unsupported_types_witness :
  exists rid s',
    handle_change world_with_picture 1 "img" sample_store = Some (Ok tt, s')
    /\ db_chunks s' = db_chunks sample_store
    /\ trace s'
       = [EvGetFile "img";
          EvUpsert (metadata_payload (drive_file_of res_img) "root.img"
                      (Some "2024-01-02T03:04:05+00:00"));
          EvProcessContent (drive_file_of res_img) rid;
          EvInfo (LogSkipping "image/png")].
Proof.
  exact (handle_change_skips_unsupported_types world_with_picture 1 "img"
           res_img sample_store world_with_picture_healthy
           eq_refl eq_refl eq_refl).
Defined.

Lemma process_file_content_of_a_blank_document_witness :
  exists s',
    _process_file_content world_with_blank_exports doc1 "rec-doc1" sample_store
    = Some (Ok tt, s')
    /\ filter (belongs_to "rec-doc1") (db_chunks s') = []
    /\ other_rows "rec-doc1" (db_chunks s')
       = other_rows "rec-doc1" (db_chunks sample_store)
    /\ trace s'
       = [EvProcessContent doc1 "rec-doc1"; EvExport "doc1" "text/plain";
          EvDeleteChunks "rec-doc1"; EvInfo (LogUpdated 0 "Doc 1")].
Proof.
  exact (process_file_content_of_a_blank_document world_with_blank_exports
           doc1 "rec-doc1" "text/plain"
           (String Py.SP (String Py.LF (String Py.SP EmptyString)))
           sample_store eq_refl eq_refl eq_refl eq_refl).
Defined.

End ContentProcessingWitnesses.

(* ================================================================== *)
(** ** Listing the children of a folder *)

Section Pages.

Variable W : World.

Lemma list_pages_serves (folder : string) (pages : list (list Resource))
    (token : option string) :
  serves W folder token pages ->
  forall fuel, (List.length pages <= fuel)%nat ->
  forall items s, exists s' evs,
    list_pages W fuel folder token items s
    = Some (Ok (items ++ map drive_file_of (List.concat pages)), s')
    /\ trace s' = trace s ++ evs
    /\ List.length evs = List.length pages
    /\ db_chunks s' = db_chunks s.
Proof.
  induction 1 as [token fs next Hl Hn|token fs t rest Hl Ht _ IH];
    intros fuel Hf items s; (destruct fuel as [|fuel]; [simpl in Hf; lia|]).
  - exists (mkStore (db_chunks s) (db_page_token s)
                    (trace s ++ [EvListChildren folder token])),
           [EvListChildren folder token].
    simpl. unfold bind, emit, lift, ret. rewrite Hl. simpl.
    rewrite app_nil_r.
    destruct next as [t|]; [rewrite Hn|]; auto.
  - destruct (IH fuel ltac:(simpl in Hf; lia)
                (items ++ map drive_file_of fs)
                (mkStore (db_chunks s) (db_page_token s)
                         (trace s ++ [EvListChildren folder token])))
      as (s' & evs & Hrun & Htr & Hlen & Hdb).
    exists s', (EvListChildren folder token :: evs).
    simpl. unfold bind at 1, emit at 1. unfold bind at 1, lift at 1.
    rewrite Hl. simpl. rewrite Ht, Hrun, map_app, <- app_assoc.
    split; [reflexivity|]. split; [|split].
    + rewrite Htr. simpl. now rewrite <- app_assoc.
    + simpl. now rewrite Hlen.
    + exact Hdb.
Qed.

(** X16: [list_children] follows the continuation tokens: when the provider
    serves the children of the folder in some pages, the last one with no
    token or an empty one, it returns the files of all the pages, in the
    order of the pages, after one request per page. *)
Theorem list_children_gathers_all_pages
    (folder_id : option string) (pages : list (list Resource))
    (fuel : nat) (s : Store) :
  serves W (Py.or_str folder_id (root_id W)) None pages ->
  (List.length pages <= fuel)%nat ->
  exists s' evs,
    list_children W fuel folder_id s
    = Some (Ok (map drive_file_of (List.concat pages)), s')
    /\ trace s' = trace s ++ evs
    /\ List.length evs = List.length pages
    /\ db_chunks s' = db_chunks s.
Proof.
  intros Hs Hf. unfold list_children.
  exact (list_pages_serves _ pages None Hs fuel Hf [] s).
Qed.

Lemma list_pages_never_ends (folder : string) :
  never_ends W folder ->
  forall fuel token items s,
    list_pages W fuel folder token items s = None.
Proof.
  intros H. induction fuel as [|fuel IH]; intros token items s;
    [reflexivity|].
  destruct (H token) as (fs & t & Hl & Ht).
  simpl. unfold bind at 1, emit at 1. unfold bind at 1, lift at 1.
  rewrite Hl. simpl. rewrite Ht. apply IH.
Qed.

(** X17: nothing bounds the number of pages: when the provider answers
    every listing request for the folder with a token for a next page,
    [list_children] does not return, whatever the budget, and neither does a
    walk that starts from that folder. *)
Theorem list_children_follows_tokens_without_end
    (folder_id : option string) (path_stack : option (list string)) :
  never_ends W (Py.or_str folder_id (root_id W)) ->
  forall fuel s,
    list_children W fuel folder_id s = None
    /\ bootstrap_folder W fuel folder_id path_stack s = None.
Proof.
  intros H fuel s. split.
  - unfold list_children. now apply list_pages_never_ends.
  - destruct fuel as [|fuel]; [reflexivity|].
    simpl. unfold bind at 1. unfold list_children.
    rewrite or_str_twice.
    now rewrite (list_pages_never_ends _ H).
Qed.

End Pages.

Section PagesWitnesses.

Lemma list_children_gathers_all_pages_witness :
  exists s' evs,
    list_children sample_world 2 None empty_store
    = Some (Ok [doc1; sub], s')
    /\ trace s' = trace empty_store ++ evs
    /\ List.length evs = 2%nat
    /\ db_chunks s' = db_chunks empty_store.
Proof.
  refine (list_children_gathers_all_pages sample_world None
            [[res_doc1]; [res_sub]] 2 empty_store _ _).
  - apply (serves_more sample_world "root" None [res_doc1] "page-2"
             [[res_sub]] eq_refl eq_refl).
    apply (serves_last sample_world "root" (Some "page-2") [res_sub] None
             eq_refl I).
  - simpl. lia.
Defined.

Lemma list_children_follows_tokens_without_end_witness :
  list_children world_of_endless_pages 50 None empty_store = None
  /\ bootstrap_folder world_of_endless_pages 50 None None empty_store = None.
Proof.
  refine (list_children_follows_tokens_without_end world_of_endless_pages
            None None _ 50%nat empty_store).
  intros token. exists [res_doc1], "again". split; reflexivity.
Defined.

End PagesWitnesses.

(* ================================================================== *)
(** ** What every run keeps *)

Section PreservedTable.

Variable W : World.
Variable R : Store -> Store -> Prop.

Hypothesis R_trans : forall s1 s2 s3, R s1 s2 -> R s2 s3 -> R s1 s3.
Hypothesis R_emit : forall e s,
  worker_event e ->
  R s (mkStore (db_chunks s) (db_page_token s) (trace s ++ [e])).
Hypothesis R_chunks : forall f s,
  R s (mkStore (f (db_chunks s)) (db_page_token s) (trace s)).

(** A relation that holds across every change of the table holds across
    the replacement of the rows of a file. *)
Lemma update_chunks_preserved (fid : string) (rows : list Chunk) :
  preserves R (update_chunks W fid rows).
Proof.
  intros s r s' H.
  unfold update_chunks, bind, emit, lift, set_chunks, ret in H.
  pose proof (R_emit (EvDeleteChunks fid) s I) as H1.
  destruct (rest_delete_chunks W fid) as [[]|e]; simpl in H.
  - set (s1 := mkStore (db_chunks s) (db_page_token s)
                       (trace s ++ [EvDeleteChunks fid])) in *.
    pose proof (R_chunks (filter (fun c => negb (belongs_to fid c))) s1)
      as H2.
    set (s2 := mkStore _ _ _) in H2.
    destruct (nonempty rows).
    + pose proof (R_emit (EvInsertChunks rows) s2 I) as H3.
      set (s3 := mkStore _ _ _) in H3.
      destruct (rest_insert_chunks W rows) as [[]|e]; simpl in H;
        injection H as _ <-.
      * pose proof (R_chunks (fun table => table ++ rows) s3) as H4.
        exact (R_trans _ _ _ H1 (R_trans _ _ _ H2 (R_trans _ _ _ H3 H4))).
      * exact (R_trans _ _ _ H1 (R_trans _ _ _ H2 H3)).
    + injection H as _ <-. exact (R_trans _ _ _ H1 H2).
  - injection H as _ <-. exact H1.
Qed.

End PreservedTable.

Section Preserved.

Variable W : World.
Variable R : Store -> Store -> Prop.
Variable good : Event -> Prop.

Hypothesis R_refl : forall s, R s s.
Hypothesis R_trans : forall s1 s2 s3, R s1 s2 -> R s2 s3 -> R s1 s3.
Hypothesis R_emit : forall e s,
  good e ->
  R s (mkStore (db_chunks s) (db_page_token s) (trace s ++ [e])).
Hypothesis R_update : forall fid rows,
  Forall (fun c => file_id c = fid) rows ->
  preserves R (update_chunks W fid rows).
Hypothesis Hgood : forall e, worker_event e -> good e.

Lemma preserves_ret {A} (a : A) : preserves R (ret a).
Proof. intros s r s' [= _ <-]. apply R_refl. Qed.

Lemma preserves_raise {A} (e : exn) : preserves R (@raise A e).
Proof. intros s r s' [= _ <-]. apply R_refl. Qed.

Lemma preserves_lift {A} (o : result A) : preserves R (lift o).
Proof. intros s r s' [= _ <-]. apply R_refl. Qed.

Lemma preserves_out_of_fuel {A} : preserves R (@out_of_fuel A).
Proof. intros s r s' H. discriminate. Qed.

Lemma preserves_emit (e : Event) : worker_event e -> preserves R (emit e).
Proof. intros He s r s' [= _ <-]. apply R_emit, Hgood, He. Qed.

Lemma preserves_bind {A B} (m : M A) (k : A -> M B) :
  preserves R m -> (forall a, preserves R (k a)) -> preserves R (bind m k).
Proof.
  intros Hm Hk s r s' H. unfold bind in H.
  destruct (m s) as [[[a|e] s1]|] eqn:E; try discriminate.
  - exact (R_trans _ _ _ (Hm _ _ _ E) (Hk a _ _ _ H)).
  - injection H as _ <-. exact (Hm _ _ _ E).
Qed.

Lemma preserves_for_each {A} (body : A -> M unit) (l : list A) :
  (forall x, preserves R (body x)) -> preserves R (for_each l body).
Proof.
  intros Hb. induction l as [|x l IH]; simpl.
  - apply preserves_ret.
  - apply preserves_bind; [apply Hb|intros _; exact IH].
Qed.

Ltac keeps :=
  repeat match goal with
  | |- preserves _ (bind _ _) => apply preserves_bind; [|intros ?]
  | |- preserves _ (emit _) => apply preserves_emit; simpl; eauto
  | |- preserves _ (lift _) => apply preserves_lift
  | |- preserves _ (ret _) => apply preserves_ret
  | |- preserves _ (raise _) => apply preserves_raise
  | |- preserves _ out_of_fuel => apply preserves_out_of_fuel
  | |- preserves _ (match ?x with _ => _ end) => destruct x
  end.

Lemma preserves_get_file (i : string) : preserves R (get_file W i).
Proof. unfold get_file. keeps. Qed.

Lemma preserves_list_pages (fuel : nat) : forall folder token items,
  preserves R (list_pages W fuel folder token items).
Proof.
  induction fuel as [|fuel IH]; intros folder token items; simpl.
  - apply preserves_out_of_fuel.
  - keeps; apply IH.
Qed.

Lemma preserves_list_children (fuel : nat) (folder : option string) :
  preserves R (list_children W fuel folder).
Proof. unfold list_children. apply preserves_list_pages. Qed.

Lemma preserves_export_file (i m : string) : preserves R (export_file W i m).
Proof. unfold export_file. keeps. Qed.

Lemma preserves_upsert (f : DriveFile) (path : string)
    (modified_at : option string) :
  preserves R (upsert_file_metadata W (metadata_payload f path modified_at)).
Proof. unfold upsert_file_metadata. keeps. Qed.

Lemma preserves_embed_chunk (c : Chunk) : preserves R (embed_chunk W c).
Proof. unfold embed_chunk. keeps. Qed.

Lemma preserves_embed_loop (cs : list Chunk) : preserves R (embed_loop W cs).
Proof.
  induction cs as [|c cs IH]; simpl; keeps.
  - apply preserves_embed_chunk.
  - exact IH.
Qed.

Lemma preserves_embed_chunks (cs : list Chunk) :
  preserves R (embed_chunks W cs).
Proof. unfold embed_chunks. keeps. apply preserves_embed_loop. Qed.

Lemma preserves_process (f : DriveFile) (rid : string) :
  preserves R (_process_file_content W f rid).
Proof.
  unfold _process_file_content.
  apply preserves_bind; [keeps|intros _].
  destruct (SUPPORTED_EXPORTS (mime_type f)) as [export_type|]; [|keeps].
  apply preserves_bind; [apply preserves_export_file|intros text].
  intros s r s' H. unfold bind at 1 in H.
  destruct (embed_chunks W (chunk_text text rid 800 200) s)
    as [[[cs|e] s1]|] eqn:E; try discriminate.
  - apply (R_trans _ _ _ (preserves_embed_chunks _ _ _ _ E)).
    assert (Hrows : Forall (fun c => file_id c = rid) (map as_payload cs)).
    { rewrite map_as_payload.
      destruct (embed_chunks_keeps W _ _ _ _ E) as (Hf & _).
      apply (Forall_file_id rid _ _ Hf).
      apply belongs_to_all, chunk_text_numbers_aux. }
    assert (Hk : preserves R
                   (update_chunks W rid (map as_payload cs) ;;;
                    emit (EvInfo (LogUpdated
                                    (List.length (map as_payload cs))
                                    (name f))))).
    { apply preserves_bind; [apply R_update, Hrows|intros _; keeps]. }
    exact (Hk _ _ _ H).
  - injection H as _ <-. exact (preserves_embed_chunks _ _ _ _ E).
Qed.

Lemma preserves_bootstrap_item recur (stack : list string) (item : DriveFile) :
  (forall a b, preserves R (recur a b)) ->
  preserves R (bootstrap_item W recur stack item).
Proof.
  intros Hr. unfold bootstrap_item. keeps.
  - apply preserves_upsert.
  - apply Hr.
  - apply preserves_process.
Qed.

Lemma preserves_bootstrap_folder (fuel : nat) : forall folder stack,
  preserves R (bootstrap_folder W fuel folder stack).
Proof.
  induction fuel as [|fuel IH]; intros folder stack; simpl.
  - apply preserves_out_of_fuel.
  - keeps.
    + apply preserves_list_children.
    + apply preserves_for_each. intros x.
      apply preserves_bootstrap_item. exact IH.
Qed.

Lemma preserves_handle_change (fuel : nat) (file_id : string) :
  preserves R (handle_change W fuel file_id).
Proof.
  unfold handle_change. keeps.
  - apply preserves_get_file.
  - apply preserves_bootstrap_folder.
  - apply preserves_upsert.
  - apply preserves_process.
Qed.

Lemma preserves_webhook_loop (fuel : nat) (changes : list Change) :
  forall acc, preserves R (webhook_loop W fuel changes acc).
Proof.
  induction changes as [|c changes IH]; intros acc; simpl; keeps.
  - apply preserves_handle_change.
  - apply IH.
  - apply IH.
Qed.

End Preserved.

(* ================================================================== *)
(** ** Upserts, the page token and the triggers *)

Section Triggers.

Variable W : World.

Lemma grown_by_refl (P : Event -> Prop) s : grown_by P s s.
Proof. exists []. split; [now rewrite app_nil_r|constructor]. Qed.

Lemma grown_by_trans (P : Event -> Prop) s1 s2 s3 :
  grown_by P s1 s2 -> grown_by P s2 s3 -> grown_by P s1 s3.
Proof.
  intros (e1 & H1 & F1) (e2 & H2 & F2). exists (e1 ++ e2). split.
  - now rewrite H2, H1, app_assoc.
  - apply Forall_app. now split.
Qed.

Lemma worker_event_defaults (e : Event) :
  worker_event e -> upsert_defaults e.
Proof.
  destruct e; simpl; auto. intros (f & path & ts & ->). simpl.
  repeat split.
Qed.

(** X18: whatever the provider and the stores answer, and however the run
    ends, every upsert that a walk or the handling of a change submits
    carries nothing but defaults in the fields that do not come from the
    Drive: no review date, not core, empty tag lists, no voucher, author,
    maintainer or export path. *)
Theorem upserts_submit_only_defaults (fuel : nat) :
  (forall folder_id path_stack,
     preserves (grown_by upsert_defaults)
               (bootstrap_folder W fuel folder_id path_stack))
  /\ (forall file_id,
        preserves (grown_by upsert_defaults) (handle_change W fuel file_id)).
Proof.
  assert (He : forall e s, upsert_defaults e ->
            grown_by upsert_defaults s
              (mkStore (db_chunks s) (db_page_token s) (trace s ++ [e]))).
  { intros e s H. exists [e]. split; [reflexivity|]. now repeat constructor. }
  assert (Hc : forall f s,
            grown_by upsert_defaults s
              (mkStore (f (db_chunks s)) (db_page_token s) (trace s))).
  { intros f s. apply (grown_by_refl upsert_defaults s). }
  assert (Hu : forall fid rows,
            Forall (fun c => file_id c = fid) rows ->
            preserves (grown_by upsert_defaults) (update_chunks W fid rows)).
  { intros fid rows _.
    apply (update_chunks_preserved W _ (grown_by_trans _)); [|exact Hc].
    intros e s Hw. apply He, worker_event_defaults, Hw. }
  split; intros.
  - apply (preserves_bootstrap_folder W _ upsert_defaults
             (grown_by_refl _) (grown_by_trans _) He Hu worker_event_defaults).
  - apply (preserves_handle_change W _ upsert_defaults
             (grown_by_refl _) (grown_by_trans _) He Hu worker_event_defaults).
Qed.

Lemma webhook_loop_same_token (fuel : nat) (changes : list Change) acc :
  preserves same_page_token (webhook_loop W fuel changes acc).
Proof.
  assert (Ht : forall s1 s2 s3,
            same_page_token s1 s2 -> same_page_token s2 s3 ->
            same_page_token s1 s3).
  { unfold same_page_token. intros s1 s2 s3 H1 H2. congruence. }
  apply (preserves_webhook_loop W same_page_token (fun _ => True)).
  - intros s. reflexivity.
  - exact Ht.
  - intros e s _. reflexivity.
  - intros fid rows _.
    apply (update_chunks_preserved W same_page_token); try exact Ht;
      intros; reflexivity.
  - intros e _. exact I.
Qed.

(** X19: the webhook stores the page token last, and only a non-empty one.
    When the call returns, the stored token is the token of the delivery,
    or the token stored before when the delivery has none or an empty one.
    When the call raises, because a change could not be handled or because
    the token request failed, the stored token is the one stored before. *)
Theorem webhook_records_the_page_token_last
    (fuel : nat) (changes : list Change) (rid : string)
    (tok : option string) (s : Store) r s' :
  drive_webhook W fuel changes rid tok s = Some (r, s') ->
  match r with
  | Ok _ =>
      db_page_token s'
      = match tok with
        | Some t => if Py.truthy t then Some t else db_page_token s
        | None => db_page_token s
        end
  | Raise _ => db_page_token s' = db_page_token s
  end.
Proof.
  unfold drive_webhook. intros H.
  unfold bind at 1, emit at 1 in H. unfold bind at 1 in H.
  destruct (webhook_loop W fuel changes [] _) as [[[p|e] s1]|] eqn:E;
    try discriminate.
  - pose proof (webhook_loop_same_token fuel changes [] _ _ _ E) as Ht.
    unfold same_page_token in Ht. simpl in Ht.
    unfold bind at 1 in H.
    destruct tok as [t|]; [destruct (Py.truthy t)|].
    + unfold record_drive_page_token, bind, emit, lift, set_page_token, ret
        in H.
      destruct (rpc_set_drive_start_page_token W t) as [u|e];
        simpl in H; injection H as <- <-; simpl; auto.
    + unfold ret in H. injection H as <- <-. exact Ht.
    + unfold ret in H. injection H as <- <-. exact Ht.
  - pose proof (webhook_loop_same_token fuel changes [] _ _ _ E) as Ht.
    injection H as <- <-. exact Ht.
Qed.

(** X20: the manual triggers check the bearer before anything else.  With
    a trigger token configured, a call whose [Authorization] header is not
    exactly ["Bearer "] followed by the token is answered 401 and the store
    is not touched: no request is sent.  With no trigger token, or an empty
    one, every call is let through and does the work. *)
Theorem manual_triggers_check_the_bearer_first
    (fuel : nat) (drive_id : string) (authorization : option string)
    (s : Store) :
  (forall t,
     manual_trigger_token (cfg W) = Some t -> Py.truthy t = true ->
     authorization <> Some (String.append "Bearer " t) ->
     manual_reindex W fuel drive_id authorization s = Some (Ok Unauthorized, s)
     /\ bootstrap W fuel authorization s = Some (Ok Unauthorized, s))
  /\ (manual_trigger_token (cfg W) = None
      \/ manual_trigger_token (cfg W) = Some EmptyString ->
      manual_reindex W fuel drive_id authorization
      = (handle_change W fuel drive_id ;;;
         ret (Answered ("scheduled", drive_id)))
      /\ bootstrap W fuel authorization
         = (bootstrap_folder W fuel None None ;;; ret (Answered "completed"))).
Proof.
  split.
  - intros t Ht Htr Hne.
    assert (Ha : authorized (cfg W) authorization = false).
    { unfold authorized. rewrite Ht, Htr.
      destruct authorization as [a|]; [|reflexivity].
      destruct (String.eqb_spec a (String.append "Bearer " t)) as [->|];
        [now elim Hne|reflexivity]. }
    unfold manual_reindex, bootstrap. rewrite Ha. split; reflexivity.
  - intros Ht.
    assert (Ha : authorized (cfg W) authorization = true).
    { unfold authorized. destruct Ht as [-> | ->]; reflexivity. }
    unfold manual_reindex, bootstrap. rewrite Ha. split; reflexivity.
Qed.

End Triggers.

Section TriggersWitnesses.

Lemma webhook_records_the_page_token_last_witness :
  exists s',
    drive_webhook sample_world 2 sample_batch "res" (Some "tok") empty_store
    = Some (Ok (["doc1"; "doc2"], "res"), s')
    /\ db_page_token s' = Some "tok".
Proof.
  destruct (drive_webhook sample_world 2 sample_batch "res" (Some "tok")
              empty_store) as [[[a|e] s']|] eqn:E;
    try (vm_compute in E; discriminate).
  pose proof (webhook_records_the_page_token_last sample_world _ _ _ _ _ _ _ E)
    as Ht.
  simpl in Ht. exists s'. split; [|exact Ht].
  vm_compute in E. injection E as <- _. reflexivity.
Defined.

Lemma manual_triggers_check_the_bearer_first_witness :
  manual_reindex world_with_trigger_token 2 "doc1" (Some "Bearer guess")
                 sample_store
  = Some (Ok Unauthorized, sample_store)
  /\ bootstrap world_with_trigger_token 2 None sample_store
     = Some (Ok Unauthorized, sample_store)
  /\ manual_reindex sample_world 2 "doc1" None
     = (handle_change sample_world 2 "doc1" ;;;
        ret (Answered ("scheduled", "doc1"))).
Proof.
  split; [|split].
  - apply (proj1 (manual_triggers_check_the_bearer_first
                    world_with_trigger_token 2 "doc1" (Some "Bearer guess")
                    sample_store) "s3cret" eq_refl eq_refl).
    discriminate.
  - apply (proj1 (manual_triggers_check_the_bearer_first
                    world_with_trigger_token 2 "doc1" None
                    sample_store) "s3cret" eq_refl eq_refl).
    discriminate.
  - apply (proj2 (manual_triggers_check_the_bearer_first
                    sample_world 2 "doc1" None sample_store)).
    now left.
Defined.

Lemma upserts_submit_only_defaults_witness :
  exists r s',
    handle_change world_rejecting_doc1 2 "doc1" empty_store = Some (r, s')
    /\ grown_by upsert_defaults empty_store s'.
Proof.
  destruct (handle_change world_rejecting_doc1 2 "doc1" empty_store)
    as [[r s']|] eqn:E; [|vm_compute in E; discriminate].
  exists r, s'. split; [reflexivity|].
  exact (proj2 (upserts_submit_only_defaults world_rejecting_doc1 2)
               "doc1" _ _ _ E).
Defined.

End TriggersWitnesses.

(* ================================================================== *)
(** ** Paths tell positions apart *)

Section Paths.

Lemma derive_path_cons (x : string) (l : list string) :
  _derive_path (x :: l) = String.append x (path_tail l).
Proof.
  unfold _derive_path, Py.join. destruct l as [|y l]; simpl.
  - now rewrite append_nil_r.
  - reflexivity.
Qed.

Lemma path_tail_shape (l : list string) :
  path_tail l = EmptyString \/ exists r, path_tail l = String "." r.
Proof. destruct l; [now left|right; eexists; reflexivity]. Qed.

Lemma dot_free_prefix (x : string) : forall y r1 r2,
  dot_free x = true -> dot_free y = true ->
  (r1 = EmptyString \/ exists r, r1 = String "." r) ->
  (r2 = EmptyString \/ exists r, r2 = String "." r) ->
  String.append x r1 = String.append y r2 -> x = y /\ r1 = r2.
Proof.
  induction x as [|c x IH]; intros [|d y] r1 r2 Hx Hy H1 H2 E; simpl in *.
  - now split.
  - apply andb_prop in Hy as [Hd _].
    destruct H1 as [-> | [r ->]]; [discriminate|].
    injection E as <- _. discriminate.
  - apply andb_prop in Hx as [Hc _].
    destruct H2 as [-> | [r ->]]; [discriminate|].
    injection E as -> _. discriminate.
  - apply andb_prop in Hx as [_ Hx]. apply andb_prop in Hy as [_ Hy].
    injection E as -> E.
    destruct (IH y r1 r2 Hx Hy H1 H2 E) as [-> ->]. now split.
Qed.

Lemma path_tail_inj (a : list string) : forall b,
  forallb dot_free a = true -> forallb dot_free b = true ->
  path_tail a = path_tail b -> a = b.
Proof.
  induction a as [|x a IH]; intros [|y b] Ha Hb E.
  - reflexivity.
  - discriminate.
  - discriminate.
  - simpl in Ha, Hb.
    apply andb_prop in Ha as [Hx Ha]. apply andb_prop in Hb as [Hy Hb].
    unfold path_tail in E. rewrite !derive_path_cons in E.
    simpl in E. injection E as E.
    destruct (dot_free_prefix x y _ _ Hx Hy (path_tail_shape a)
                (path_tail_shape b) E) as [-> Et].
    now rewrite (IH b Ha Hb Et).
Qed.

(** X21: the path tells positions apart as long as no id holds a dot: two
    non-empty stacks of dot-free ids with the same path are the same stack.
    Both conditions are needed: an id with a dot reads as two ids, and the
    empty stack reads as the stack of the empty id. *)
Theorem derive_path_tells_positions_apart :
  (forall a b : list string,
     a <> [] -> b <> [] ->
     forallb dot_free a = true -> forallb dot_free b = true ->
     _derive_path a = _derive_path b -> a = b)
  /\ (forall (stack : list string) (x y : string),
        _derive_path (stack ++ [String.append x (String.append "." y)])
        = _derive_path (stack ++ [x; y]))
  /\ _derive_path [] = _derive_path [EmptyString].
Proof.
  split; [|split].
  - intros [|x a] [|y b] Hna Hnb Ha Hb E; try contradiction.
    simpl in Ha, Hb.
    apply andb_prop in Ha as [Hx Ha]. apply andb_prop in Hb as [Hy Hb].
    rewrite !derive_path_cons in E.
    destruct (dot_free_prefix x y _ _ Hx Hy (path_tail_shape a)
                (path_tail_shape b) E) as [-> Et].
    now rewrite (path_tail_inj a b Ha Hb Et).
  - intros stack x y. induction stack as [|z stack IH].
    + simpl. rewrite !derive_path_cons. simpl.
      rewrite !derive_path_cons. simpl. now rewrite !append_nil_r.
    + rewrite <- !app_comm_cons, !derive_path_cons.
      assert (Ht : path_tail (stack ++ [String.append x (String.append "." y)])
                   = path_tail (stack ++ [x; y])).
      { unfold path_tail.
        destruct stack as [|w stack].
        - rewrite !app_nil_l in *. now rewrite IH.
        - rewrite <- !app_comm_cons in *. now rewrite IH. }
      now rewrite Ht.
  - reflexivity.
Qed.

Lemma derive_path_tells_positions_apart_witness :
  _derive_path ["root"; "sub"; "doc2"] <> _derive_path ["root"; "doc2"].
Proof.
  intros E.
  assert (H : ["root"; "sub"; "doc2"] = ["root"; "doc2"]).
  { apply (proj1 derive_path_tells_positions_apart).
    - discriminate.
    - discriminate.
    - reflexivity.
    - reflexivity.
    - exact E. }
  discriminate H.
Defined.

End Paths.

(* ================================================================== *)
(** ** The rows a run leaves alone *)

Section Frame.

Variable W : World.

Lemma rows_change_refl s : rows_change_on_request s s.
Proof. exists []. split; [now rewrite app_nil_r|reflexivity]. Qed.

Lemma rows_change_trans s1 s2 s3 :
  rows_change_on_request s1 s2 -> rows_change_on_request s2 s3 ->
  rows_change_on_request s1 s3.
Proof.
  intros (e1 & H1 & F1) (e2 & H2 & F2). exists (e1 ++ e2). split.
  - now rewrite H2, H1, app_assoc.
  - intros fid Hn. unfold same_rows_of in *.
    rewrite F2, F1; [reflexivity| |]; intros Hin; apply Hn, in_or_app; auto.
Qed.

Lemma rows_change_emit (e : Event) s :
  rows_change_on_request s
    (mkStore (db_chunks s) (db_page_token s) (trace s ++ [e])).
Proof. exists [e]. split; reflexivity. Qed.

Lemma filter_other_file (fid fid' : string) (table rows : list Chunk) :
  fid' <> fid ->
  Forall (fun c => file_id c = fid) rows ->
  filter (belongs_to fid')
         (filter (fun c => negb (belongs_to fid c)) table ++ rows)
  = filter (belongs_to fid') table.
Proof.
  intros Hne Hrows. rewrite filter_app.
  assert (Hr : filter (belongs_to fid') rows = []).
  { induction Hrows as [|c rows Hc _ IH]; [reflexivity|]. simpl.
    unfold belongs_to at 1. rewrite Hc.
    destruct (String.eqb_spec fid fid') as [E|_]; [now elim Hne|exact IH]. }
  rewrite Hr, app_nil_r.
  induction table as [|c table IH]; [reflexivity|].
  cbn [filter].
  destruct (belongs_to fid c) eqn:Ec; cbn [negb].
  - assert (Ec' : belongs_to fid' c = false).
    { unfold belongs_to in *. apply String.eqb_eq in Ec.
      apply String.eqb_neq. congruence. }
    rewrite Ec'. exact IH.
  - cbn [filter]. destruct (belongs_to fid' c); [now rewrite IH|exact IH].
Qed.

Lemma rows_change_update (fid : string) (rows : list Chunk) :
  Forall (fun c => file_id c = fid) rows ->
  preserves rows_change_on_request (update_chunks W fid rows).
Proof.
  intros Hrows s r s' H.
  assert (Hdel : forall fid' evs,
            ~ In (EvDeleteChunks fid') (EvDeleteChunks fid :: evs) ->
            fid' <> fid).
  { intros fid' evs Hn ->. apply Hn. now left. }
  assert (Hcut : forall fid', fid' <> fid ->
            filter (belongs_to fid')
                   (filter (fun c => negb (belongs_to fid c)) (db_chunks s))
            = filter (belongs_to fid') (db_chunks s)).
  { intros fid' Hne.
    rewrite <- (filter_other_file fid fid' (db_chunks s) [] Hne
                  (Forall_nil _)).
    now rewrite app_nil_r. }
  unfold update_chunks, bind, emit, lift, set_chunks, ret in H.
  destruct (rest_delete_chunks W fid) as [[]|e]; simpl in H.
  - destruct (nonempty rows).
    + destruct (rest_insert_chunks W rows) as [[]|e]; simpl in H;
        injection H as _ <-.
      * exists [EvDeleteChunks fid; EvInsertChunks rows]. split.
        { simpl. now rewrite <- app_assoc. }
        intros fid' Hn. unfold same_rows_of. simpl.
        apply filter_other_file; [exact (Hdel _ _ Hn)|exact Hrows].
      * exists [EvDeleteChunks fid; EvInsertChunks rows]. split.
        { simpl. now rewrite <- app_assoc. }
        intros fid' Hn. unfold same_rows_of. simpl.
        apply Hcut. exact (Hdel _ _ Hn).
    + injection H as _ <-. exists [EvDeleteChunks fid]. split.
      { reflexivity. }
      intros fid' Hn. unfold same_rows_of. simpl.
      apply Hcut. exact (Hdel _ _ Hn).
  - injection H as _ <-. exists [EvDeleteChunks fid]. split; reflexivity.
Qed.

(** X22: a run alters the chunks of those files only whose chunks it asks
    to delete.  In any run of a walk or of the handling of a change,
    whatever the requests answer and however the run ends, the rows of a
    file for which the run sent no delete request are, in the same order,
    the rows it had before: every insert carries rows of the file whose rows
    were deleted just before. *)
Theorem runs_leave_the_other_files_alone (fuel : nat) :
  (forall folder_id path_stack,
     preserves rows_change_on_request
               (bootstrap_folder W fuel folder_id path_stack))
  /\ (forall file_id,
        preserves rows_change_on_request (handle_change W fuel file_id)).
Proof.
  split; intros.
  - apply (preserves_bootstrap_folder W _ (fun _ => True)
             rows_change_refl rows_change_trans
             (fun e s _ => rows_change_emit e s) rows_change_update
             (fun _ _ => I)).
  - apply (preserves_handle_change W _ (fun _ => True)
             rows_change_refl rows_change_trans
             (fun e s _ => rows_change_emit e s) rows_change_update
             (fun _ _ => I)).
Qed.

End Frame.

Section FrameWitness.

Lemma runs_leave_the_other_files_alone_witness :
  exists s',
    handle_change sample_world 2 "doc2" sample_store = Some (Ok tt, s')
    /\ filter (belongs_to "rec-doc2") (db_chunks s') <> []
    /\ filter (belongs_to "rec-doc1") (db_chunks s')
       = db_chunks sample_store.
Proof.
  destruct (handle_change sample_world 2 "doc2" sample_store)
    as [[r s']|] eqn:E; [|vm_compute in E; discriminate].
  destruct (proj2 (runs_leave_the_other_files_alone sample_world 2)
                  "doc2" _ _ _ E) as (evs & Ht & Hrows).
  specialize (Hrows "rec-doc1").
  vm_compute in E. injection E as <- <-.
  eexists. split; [reflexivity|]. split; [discriminate|].
  simpl in Ht. subst evs.
  apply Hrows. simpl.
  intros Hin. repeat (destruct Hin as [Hin|Hin]; [discriminate|]).
  exact Hin.
Defined.

End FrameWitness.
